(** * gatsby-image: the visibility-and-load controller of [index.js]

    A shallow embedding of [packages/gatsby-image/src/index.js]: the image
    cache, the shared IntersectionObserver with its listener table, and the
    [Image] component's constructor, lifecycle methods, event handlers and
    the state-dependent part of [render].

    Conventions.
    - JavaScript values that the code tests for truthiness are kept as
      [value]s; [truthy] is ECMAScript's ToBoolean.
    - A call that can raise (a property read on [undefined]) returns a
      [result]; [Throw] carries the exception.
    - Module-level mutable bindings ([imageCache], [io], [listeners]) are
      threaded explicitly.
    - The hooks passed as props ([onStartLoad], [onLoad], [onError]) are the
      caller's code: a call is recorded in [calls], what the hook does is
      outside the model.
    - [console.log]/[console.warn] diagnostics write to the console only and
      influence neither results nor state; they are left out. *)

From stdpp Require Import base option list gmap strings pretty.
From Stdlib Require Import ZArith Lia.

Local Open Scope string_scope.
Local Open Scope list_scope.

(** ** JavaScript values *)

Inductive value : Type :=
  | VUndefined
  | VBool (b : bool)
  | VNum (n : Z)
  | VStr (s : string)
  | VFun (name : string)     (* a function object, named for identification *)
  | VObj (name : string).    (* any other object, named for identification *)

#[global] Instance value_eq_dec : EqDecision value.
Proof. solve_decision. Defined.

(** ToBoolean. *)
Definition truthy (v : value) : bool :=
  match v with
  | VUndefined => false
  | VBool b => b
  | VNum n => negb (n =? 0)%Z
  | VStr s => negb (String.eqb s "")
  | VFun _ => true
  | VObj _ => true
  end.

(** [a && b], [a || b] and [!a]. *)
Definition js_and (a b : value) : value := if truthy a then b else a.
Definition js_or (a b : value) : value := if truthy a then a else b.
Definition js_not (a : value) : bool := negb (truthy a).

(** ** Exceptions *)

Inductive exn : Type :=
  | TypeError (msg : string).

Inductive result (A : Type) : Type :=
  | Ok (a : A)
  | Throw (e : exn).
Arguments Ok {A} a.
Arguments Throw {A} e.

#[global] Instance result_ret : MRet result := λ A a, Ok a.
#[global] Instance result_bind : MBind result := λ A B k r,
  match r with
  | Ok a => k a
  | Throw e => Throw e
  end.

(** ** Image variants and props *)

(** A [fixedObject] / [fluidObject]; the fields the controller reads. *)
Record Variant : Type := {
  src : string;
  srcSet : string;
  media : option string;
  base64 : option string;
  tracedSVG : option string;
}.

(** [fluid]/[fixed] accept one object or an array of them. *)
Inductive Variants : Type :=
  | One (v : Variant)
  | Many (vs : list Variant).

(** CSS-in-JS style objects. *)
Abbreviation Style := (gmap string value).

(** [{ ...base, ...over }]: later keys win. *)
Definition spread (base over : Style) : Style := over ∪ base.

(** [...(cond && obj)]: spreading [false] adds nothing. *)
Definition spread_if (base : Style) (cond : bool) (over : Style) : Style :=
  if cond then spread base over else base.

Inductive Loading : Type := LoadingAuto | LoadingLazy | LoadingEager.

#[global] Instance Loading_eq_dec : EqDecision Loading.
Proof. solve_decision. Defined.

(** Props after React applied [Image.defaultProps] ([fadeIn], [loading],
    [durationFadeIn] always present).  The hooks are external functions,
    identified by name; [None] is an absent prop. *)
Record Props : Type := {
  resolutions : option Variants;
  sizes : option Variants;
  fixed : option Variants;
  fluid : option Variants;
  critical : option bool;
  fadeIn : bool;
  durationFadeIn : Z;
  loading : option Loading;
  imgStyle : option Style;
  placeholderStyle : option Style;
  onLoad : option string;
  onError : option string;
  onStartLoad : option string;
}.

Definition has_media (v : Variant) : bool :=
  match media v with
  | Some m => negb (String.eqb m "")
  | None => false
  end.

(** [imageVariants.forEach(variant =>
       (variant.media ? withMedia : without).push(variant))] *)
Definition groupByMedia_push (acc : list Variant * list Variant) (variant : Variant)
  : list Variant * list Variant :=
  let '(withMedia, without) := acc in
  if has_media variant then (withMedia ++ [variant], without)
  else (withMedia, without ++ [variant]).

Definition groupByMedia (imageVariants : list Variant) : list Variant :=
  let '(withMedia, without) := fold_left groupByMedia_push imageVariants ([], []) in
  withMedia ++ without.

(** [[].concat(x)] *)
Definition concat_array (x : Variants) : list Variant :=
  match x with
  | One v => [v]
  | Many vs => vs
  end.

Definition set_fixed (p : Props) (x : option Variants) : Props :=
  {| resolutions := resolutions p; sizes := sizes p; fixed := x; fluid := fluid p;
     critical := critical p; fadeIn := fadeIn p; durationFadeIn := durationFadeIn p;
     loading := loading p; imgStyle := imgStyle p; placeholderStyle := placeholderStyle p;
     onLoad := onLoad p; onError := onError p; onStartLoad := onStartLoad p |}.

Definition set_fluid (p : Props) (x : option Variants) : Props :=
  {| resolutions := resolutions p; sizes := sizes p; fixed := fixed p; fluid := x;
     critical := critical p; fadeIn := fadeIn p; durationFadeIn := durationFadeIn p;
     loading := loading p; imgStyle := imgStyle p; placeholderStyle := placeholderStyle p;
     onLoad := onLoad p; onError := onError p; onStartLoad := onStartLoad p |}.

Definition delete_resolutions (p : Props) : Props :=
  {| resolutions := None; sizes := sizes p; fixed := fixed p; fluid := fluid p;
     critical := critical p; fadeIn := fadeIn p; durationFadeIn := durationFadeIn p;
     loading := loading p; imgStyle := imgStyle p; placeholderStyle := placeholderStyle p;
     onLoad := onLoad p; onError := onError p; onStartLoad := onStartLoad p |}.

Definition delete_sizes (p : Props) : Props :=
  {| resolutions := resolutions p; sizes := None; fixed := fixed p; fluid := fluid p;
     critical := critical p; fadeIn := fadeIn p; durationFadeIn := durationFadeIn p;
     loading := loading p; imgStyle := imgStyle p; placeholderStyle := placeholderStyle p;
     onLoad := onLoad p; onError := onError p; onStartLoad := onStartLoad p |}.

Definition set_loading (p : Props) (x : option Loading) : Props :=
  {| resolutions := resolutions p; sizes := sizes p; fixed := fixed p; fluid := fluid p;
     critical := critical p; fadeIn := fadeIn p; durationFadeIn := durationFadeIn p;
     loading := x; imgStyle := imgStyle p; placeholderStyle := placeholderStyle p;
     onLoad := onLoad p; onError := onError p; onStartLoad := onStartLoad p |}.

(** [props.critical] as a condition: absent and [false] are falsy. *)
Definition is_critical (p : Props) : bool := default false (critical p).

(** Handle legacy props during their deprecation phase. *)
Definition convertProps (props : Props) : Props :=
  let convertedProps := props in
  let convertedProps :=
    match resolutions props with
    | Some r => delete_resolutions (set_fixed convertedProps (Some r))
    | None => convertedProps
    end in
  let convertedProps :=
    match sizes props with
    | Some s => delete_sizes (set_fluid convertedProps (Some s))
    | None => convertedProps
    end in
  let convertedProps :=
    if is_critical props then set_loading convertedProps (Some LoadingEager)
    else convertedProps in
  let convertedProps :=
    match fluid convertedProps with
    | Some f => set_fluid convertedProps (Some (Many (groupByMedia (concat_array f))))
    | None => convertedProps
    end in
  let convertedProps :=
    match fixed convertedProps with
    | Some f => set_fixed convertedProps (Some (Many (groupByMedia (concat_array f))))
    | None => convertedProps
    end in
  convertedProps.

(** [x && x[0]]: an absent [x] is [undefined]; index 0 of an array is its
    head, of a plain variant object [undefined]. *)
Definition first_of (x : option Variants) : option Variant :=
  match x with
  | Some (Many vs) => head vs
  | Some (One _) => None
  | None => None
  end.

(** Find the source of an image to use as a key in the image cache. *)
Definition getImageSrcKey (convertedProps : Props) : result string :=
  let data :=
    match first_of (fluid convertedProps) with
    | Some d => Some d
    | None => first_of (fixed convertedProps)
    end in
  match data with
  | Some d => Ok (src d)
  | None => Throw (TypeError "Cannot read property 'src' of undefined")
  end.

(** ** The image cache

    [const imageCache = Object.create({})]: an object without own properties
    whose prototype is a fresh empty object, whose prototype in turn is
    [Object.prototype].  The cache is represented by its own properties; a
    property read walks the prototype chain as ECMAScript's [[Get]] does. *)
Abbreviation ImageCache := (gmap string value).

Definition imageCache_init : ImageCache := ∅.

(** The function-valued data properties of [Object.prototype]
    (ECMAScript 20.1.3 and Annex B.2.2). *)
Definition ObjectPrototype_functions : list string :=
  [ "constructor"; "hasOwnProperty"; "isPrototypeOf"; "propertyIsEnumerable";
    "toLocaleString"; "toString"; "valueOf";
    "__defineGetter__"; "__defineSetter__"; "__lookupGetter__"; "__lookupSetter__" ].

(** A read of [key] that reached [Object.prototype], for a receiver whose
    own prototype is the object [receiver_proto].  [__proto__] is an
    accessor whose getter returns the receiver's prototype. *)
Definition ObjectPrototype_get (receiver_proto : value) (key : string) : value :=
  if bool_decide (key = "__proto__") then receiver_proto
  else if bool_decide (key = "constructor") then VFun "Object"
  else if bool_decide (key ∈ ObjectPrototype_functions) then VFun key
  else VUndefined.

(** [imageCache[key]] *)
Definition imageCache_get (imageCache : ImageCache) (key : string) : value :=
  match imageCache !! key with
  | Some v => v
  | None => ObjectPrototype_get (VObj "{}") key
  end.

(** [imageCache[key] = b] for a boolean [b].  The inherited [__proto__]
    setter ignores a primitive value; every other key becomes (or updates)
    an own property. *)
Definition imageCache_set (imageCache : ImageCache) (key : string) (b : bool)
  : ImageCache :=
  if bool_decide (key = "__proto__") then imageCache
  else <[key := VBool b]> imageCache.

Definition inImageCache (imageCache : ImageCache) (props : Props) : result value :=
  let convertedProps := convertProps props in
  src ← getImageSrcKey convertedProps;
  Ok (js_or (imageCache_get imageCache src) (VBool false)).

Definition activateCacheForImage (imageCache : ImageCache) (props : Props)
  : result ImageCache :=
  let convertedProps := convertProps props in
  src ← getImageSrcKey convertedProps;
  Ok (imageCache_set imageCache src true).

(** ** Environment probes *)

(** What the host offers when the module is loaded: whether [window] exists
    and, if so, whether it carries [IntersectionObserver]; and whether
    [HTMLImageElement.prototype] has a [loading] property. *)
Record Window : Type := {
  IntersectionObserver : bool;
}.

Record Env : Type := {
  window : option Window;
  HTMLImageElement_loading : bool;
}.

Definition hasNativeLazyLoadSupport (env : Env) : bool := HTMLImageElement_loading env.

Definition isBrowser (env : Env) : bool := bool_decide (is_Some (window env)).

(** [window.IntersectionObserver], read where [window] is known to exist. *)
Definition window_IntersectionObserver (env : Env) : value :=
  match window env with
  | Some w => if IntersectionObserver w then VFun "IntersectionObserver" else VUndefined
  | None => VUndefined
  end.

Definition hasIOSupport (env : Env) : value :=
  js_and (VBool (isBrowser env)) (window_IntersectionObserver env).

(** ** The intersection registry

    [io] is the lazily created shared observer, represented by the set of
    targets it observes; [listeners] is the WeakMap from element to callback.
    DOM elements are identified by number.  Callbacks are kept as data of an
    arbitrary type [Cb]: the registry stores and returns them, and running
    one is the business of whoever registered it. *)
Abbreviation Element := nat.

Section Registry.
Context {Cb : Type}.

Record Registry : Type := {
  io : option (gset Element);
  listeners : gmap Element Cb;
}.

Definition registry_init : Registry := {| io := None; listeners := ∅ |}.

(** An [IntersectionObserverEntry]; Edge leaves [isIntersecting]
    undefined.  The ratio is a fraction [ratio_num / ratio_den]. *)
Record Entry : Type := {
  target : Element;
  isIntersecting : option bool;
  intersectionRatio : Z * positive;
}.

Definition ratio_positive (r : Z * positive) : bool := (0 <? fst r)%Z.

(** [entry.isIntersecting || entry.intersectionRatio > 0] *)
Definition entry_intersects (entry : Entry) : bool :=
  default false (isIntersecting entry) || ratio_positive (intersectionRatio entry).

Definition io_unobserve (r : Registry) (el : Element) : Registry :=
  {| io := (λ observed, observed ∖ {[el]}) <$> io r; listeners := listeners r |}.

Definition io_observe (r : Registry) (el : Element) : Registry :=
  {| io := (λ observed, observed ∪ {[el]}) <$> io r; listeners := listeners r |}.

Definition listeners_delete (r : Registry) (el : Element) : Registry :=
  {| io := io r; listeners := delete el (listeners r) |}.

Definition listeners_set (r : Registry) (el : Element) (cb : Cb) : Registry :=
  {| io := io r; listeners := <[el := cb]> (listeners r) |}.

(** A callback invocation: which element's callback ran, and the registry
    as it stood when the call was made. *)
Record Fired : Type := {
  fired_target : Element;
  fired_cb : Cb;
  fired_registry : Registry;
}.

(** The body of [entries.forEach(entry => ...)] in the observer callback. *)
Definition io_entry (acc : Registry * list Fired) (entry : Entry)
  : Registry * list Fired :=
  let '(r, calls) := acc in
  match listeners r !! target entry with
  | Some cb =>
      if entry_intersects entry then
        let r := io_unobserve r (target entry) in
        let r := listeners_delete r (target entry) in
        (r, calls ++ [ {| fired_target := target entry; fired_cb := cb;
                         fired_registry := r |} ])
      else (r, calls)
  | None => (r, calls)
  end.

(** The observer callback, run on one batch of entries. *)
Definition io_callback (r : Registry) (entries : list Entry) : Registry * list Fired :=
  fold_left io_entry entries (r, []).

(** Successive batches delivered by the browser. *)
Definition io_reports (r : Registry) (batches : list (list Entry))
  : Registry * list Fired :=
  fold_left
    (λ '(r, calls) entries,
       let '(r', calls') := io_callback r entries in (r', calls ++ calls'))
    batches (r, []).

Definition getIO (env : Env) (r : Registry) : Registry * option (gset Element) :=
  match io r with
  | None =>
      if isBrowser env && truthy (window_IntersectionObserver env) then
        let r := {| io := Some ∅; listeners := listeners r |} in (r, io r)
      else (r, None)
  | Some observed => (r, Some observed)
  end.

(** The closure returned by [listenToIntersections]: it captured
    [observer] (here: whether it was defined) and [el]. *)
Record Unsubscribe : Type := {
  unsub_observer : bool;
  unsub_el : Element;
}.

Definition run_unsubscribe (u : Unsubscribe) (r : Registry) : result Registry :=
  if unsub_observer u then
    let r := io_unobserve r (unsub_el u) in
    Ok (listeners_delete r (unsub_el u))
  else Throw (TypeError "Cannot read property 'unobserve' of undefined").

Definition listenToIntersections (env : Env) (r : Registry) (el : Element) (cb : Cb)
  : Registry * Unsubscribe :=
  let '(r, observer) := getIO env r in
  match observer with
  | Some _ =>
      let r := io_observe r el in
      let r := listeners_set r el cb in
      (r, {| unsub_observer := true; unsub_el := el |})
  | None => (r, {| unsub_observer := false; unsub_el := el |})
  end.
End Registry.

Arguments Registry : clear implicits.
Arguments Fired : clear implicits.

(** ** The [Image] component *)

Record State : Type := {
  isVisible : bool;
  imgLoaded : value;
  imgCached : bool;
  state_fadeIn : bool;
}.

(** The live [<img>] element behind [imageRef], as the browser reports it
    when asked: [complete], and [currentSrc] (undefined in IE). *)
Record ImgElement : Type := {
  complete : bool;
  currentSrc : option string;
}.

(** The callbacks this module registers with the observer: the arrow
    function created in [handleRef], closed over its component instance. *)
Inductive Callback : Type :=
  | OnIntersect (instance : nat).

Record Image : Type := {
  self : nat;
  props : Props;
  seenBefore : value;
  addNoScript : bool;
  useIOSupport : value;
  state : State;
  imageRef : option ImgElement;
  cleanUpListeners : option Unsubscribe;
}.

(** Calls made to the hooks passed in as props, in order. *)
Inductive HookCall : Type :=
  | StartLoad (hook : string) (wasCached : value)
  | Load (hook : string)
  | Error (hook : string) (event : string).

(** Everything a method of the component can read or write. *)
Record World : Type := {
  imageCache : ImageCache;
  registry : Registry Callback;
  calls : list HookCall;
  image : Image;
}.

Definition setState (f : State → State) (w : World) : World :=
  let i := image w in
  {| imageCache := imageCache w; registry := registry w; calls := calls w;
     image := {| self := self i; props := props i; seenBefore := seenBefore i;
                 addNoScript := addNoScript i; useIOSupport := useIOSupport i;
                 state := f (state i); imageRef := imageRef i;
                 cleanUpListeners := cleanUpListeners i |} |}.

Definition set_imageRef (current : option ImgElement) (w : World) : World :=
  let i := image w in
  {| imageCache := imageCache w; registry := registry w; calls := calls w;
     image := {| self := self i; props := props i; seenBefore := seenBefore i;
                 addNoScript := addNoScript i; useIOSupport := useIOSupport i;
                 state := state i; imageRef := current;
                 cleanUpListeners := cleanUpListeners i |} |}.

Definition set_cleanUpListeners (u : Unsubscribe) (w : World) : World :=
  let i := image w in
  {| imageCache := imageCache w; registry := registry w; calls := calls w;
     image := {| self := self i; props := props i; seenBefore := seenBefore i;
                 addNoScript := addNoScript i; useIOSupport := useIOSupport i;
                 state := state i; imageRef := imageRef i;
                 cleanUpListeners := Some u |} |}.

Definition set_registry (r : Registry Callback) (w : World) : World :=
  {| imageCache := imageCache w; registry := r; calls := calls w; image := image w |}.

Definition set_imageCache (c : ImageCache) (w : World) : World :=
  {| imageCache := c; registry := registry w; calls := calls w; image := image w |}.

Definition call_hook (c : HookCall) (w : World) : World :=
  {| imageCache := imageCache w; registry := registry w; calls := calls w ++ [c];
     image := image w |}.

Definition loading_is_eager (p : Props) : bool :=
  bool_decide (loading p = Some LoadingEager).

(** [constructor(props)] *)
Definition constructor (env : Env) (imageCache : ImageCache) (this : nat) (props : Props)
  : result Image :=
  seenBefore ←
    (if isBrowser env then inImageCache imageCache props else Ok (VBool false));
  let addNoScript := negb (is_critical props && negb (fadeIn props)) in
  let useIOSupport :=
    js_and
      (js_and
         (js_and (VBool (negb (hasNativeLazyLoadSupport env))) (hasIOSupport env))
         (VBool (negb (is_critical props))))
      (VBool (js_not seenBefore)) in
  let isVisible :=
    is_critical props || loading_is_eager props ||
    (isBrowser env && (hasNativeLazyLoadSupport env || js_not useIOSupport)) in
  Ok {| self := this; props := props; seenBefore := seenBefore;
        addNoScript := addNoScript; useIOSupport := useIOSupport;
        state := {| isVisible := isVisible; imgLoaded := VBool false;
                    imgCached := false;
                    state_fadeIn := js_not seenBefore && fadeIn props |};
        imageRef := None; cleanUpListeners := None |}.

(** [handleImageLoaded()] *)
Definition handleImageLoaded (w : World) : result World :=
  c ← activateCacheForImage (imageCache w) (props (image w));
  let w := set_imageCache c w in
  let w := setState (λ s, {| isVisible := isVisible s; imgLoaded := VBool true;
                             imgCached := imgCached s;
                             state_fadeIn := state_fadeIn s |}) w in
  Ok match onLoad (props (image w)) with
     | Some h => call_hook (Load h) w
     | None => w
     end.

(** ** [render]: the state-dependent part of the output *)

(** Event handlers the component itself installs. *)
Inductive Handler : Type :=
  | HandleImageLoaded.

(** Props handed to the final [<Img>]. *)
Record ImgProps : Type := {
  img_src : string;
  img_srcSet : string;
  img_style : Style;
  img_onLoad : Handler;
  img_onError : option string;
  img_loading : option Loading;
}.

(** Props handed to a [<Placeholder>]. *)
Record PlaceholderProps : Type := {
  placeholder_src : string;
  placeholder_keeps_alt : bool;
  placeholder_style : Style;
}.

Inductive Mode : Type := Fluid | Fixed.

(** The wrapper [<Tag ref={this.handleRef}>] and its state-dependent
    children. *)
Record Rendered : Type := {
  mode : Mode;
  placeholders : list PlaceholderProps;
  picture : option ImgProps;
  noscript : bool;
}.

(** [this.state.fadeIn === false || this.state.imgLoaded] *)
Definition shouldReveal (s : State) : value :=
  js_or (VBool (bool_decide (state_fadeIn s = false))) (imgLoaded s).

(** [this.state.fadeIn === true && !this.state.imgCached] *)
Definition shouldFadeIn (s : State) : bool :=
  bool_decide (state_fadeIn s = true) && negb (imgCached s).

Definition ms (n : Z) : string := pretty n +:+ "ms".

Definition imageStyle (convertedProps : Props) (s : State) : Style :=
  spread
    (<["transition" :=
         VStr (if shouldFadeIn s
               then "opacity " +:+ ms (durationFadeIn convertedProps)
               else "none")]>
       {["opacity" := VNum (if truthy (shouldReveal s) then 1 else 0)]})
    (default ∅ (imgStyle convertedProps)).

Definition delayHideStyle (convertedProps : Props) : Style :=
  {["transitionDelay" := VStr (ms (durationFadeIn convertedProps))]}.

Definition imagePlaceholderStyle (convertedProps : Props) (s : State) : Style :=
  spread
    (spread
       (spread_if
          {["opacity" := VNum (if truthy (imgLoaded s) then 0 else 1)]}
          (shouldFadeIn s) (delayHideStyle convertedProps))
       (default ∅ (imgStyle convertedProps)))
    (default ∅ (placeholderStyle convertedProps)).

(** A string prop used as a condition: absent and empty are falsy. *)
Definition if_truthy (o : option string) : option string :=
  match o with
  | Some str => if String.eqb str "" then None else Some str
  | None => None
  end.

(** The children common to the [fluid] and the [fixed] branch, for the
    first variant [image]. *)
Definition render_children (i : Image) (convertedProps : Props) (m : Mode)
    (image : Variant) : Rendered :=
  let s := state i in
  let placeholderImageProps src :=
    {| placeholder_src := src; placeholder_keeps_alt := negb (isVisible s);
       placeholder_style := imagePlaceholderStyle convertedProps s |} in
  {| mode := m;
     placeholders :=
       option_list (placeholderImageProps <$> if_truthy (base64 image))
       ++ option_list (placeholderImageProps <$> if_truthy (tracedSVG image));
     picture :=
       if isVisible s then
         Some {| img_src := src image; img_srcSet := srcSet image;
                 img_style := imageStyle convertedProps s;
                 img_onLoad := HandleImageLoaded;
                 img_onError := onError (props i);
                 img_loading := loading convertedProps |}
       else None;
     noscript := addNoScript i |}.

(** [render()].  [imageVariants[0]] of an empty array is [undefined], and
    the first read of one of its properties raises. *)
Definition render (i : Image) : result (option Rendered) :=
  let convertedProps := convertProps (props i) in
  match fluid convertedProps, fixed convertedProps with
  | Some imageVariants, _ =>
      match first_of (Some imageVariants) with
      | Some image => Ok (Some (render_children i convertedProps Fluid image))
      | None => Throw (TypeError "Cannot read property 'srcSet' of undefined")
      end
  | None, Some imageVariants =>
      match first_of (Some imageVariants) with
      | Some image => Ok (Some (render_children i convertedProps Fixed image))
      | None => Throw (TypeError "Cannot read property 'width' of undefined")
      end
  | None, None => Ok None
  end.

(** ** Lifecycle *)

(** React's commit of [ref={this.imageRef}]: the ref points at the [<img>]
    when the output contains one, and is [null] otherwise. *)
Definition attach_imageRef (dom_img : ImgElement) (rendered : option Rendered)
  : option ImgElement :=
  match rendered with
  | Some r => match picture r with Some _ => Some dom_img | None => None end
  | None => None
  end.

(** The arrow function passed to [listenToIntersections] in [handleRef].
    React re-renders synchronously after the first [setState] and attaches
    [imageRef] to the [<img>] it then finds in the output ([dom_img] is
    that element); the second [setState] runs in the first one's callback. *)
Definition onIntersect (dom_img : ImgElement) (w : World) : result World :=
  imageInCache ← inImageCache (imageCache w) (props (image w));
  let w :=
    match onStartLoad (props (image w)) with
    | Some h =>
        if negb (isVisible (state (image w)))
        then call_hook (StartLoad h imageInCache) w else w
    | None => w
    end in
  let w := setState (λ s, {| isVisible := true; imgLoaded := imgLoaded s;
                             imgCached := imgCached s;
                             state_fadeIn := state_fadeIn s |}) w in
  rendered ← render (image w);
  let w := set_imageRef (attach_imageRef dom_img rendered) w in
  match imageRef (image w) with
  | Some img =>
      Ok (setState (λ s, {| isVisible := isVisible s; imgLoaded := imageInCache;
                            imgCached := bool_decide (is_Some (if_truthy (currentSrc img)));
                            state_fadeIn := state_fadeIn s |}) w)
  | None => Throw (TypeError "Cannot read property 'currentSrc' of null")
  end.

(** [handleRef(ref)]; React passes the wrapper element, or [null] when it
    detaches the ref. *)
Definition handleRef (env : Env) (ref : option Element) (w : World) : World :=
  match ref with
  | Some el =>
      if truthy (useIOSupport (image w)) then
        let '(r, unsubscribe) :=
          listenToIntersections env (registry w) el (OnIntersect (self (image w))) in
        set_cleanUpListeners unsubscribe (set_registry r w)
      else w
  | None => w
  end.

(** [componentDidMount()] *)
Definition componentDidMount (w : World) : result World :=
  w ← match onStartLoad (props (image w)) with
      | Some h =>
          if isVisible (state (image w)) then
            wasCached ← inImageCache (imageCache w) (props (image w));
            Ok (call_hook (StartLoad h wasCached) w)
          else Ok w
      | None => Ok w
      end;
  if is_critical (props (image w)) then
    match imageRef (image w) with
    | Some img => if complete img then handleImageLoaded w else Ok w
    | None => Ok w
    end
  else Ok w.

(** [componentWillUnmount()] *)
Definition componentWillUnmount (w : World) : result World :=
  match cleanUpListeners (image w) with
  | Some unsubscribe =>
      r ← run_unsubscribe unsubscribe (registry w);
      Ok (set_registry r w)
  | None => Ok w
  end.

(** ** React and browser driving the component *)

(** Client-side mount: construct, render, attach the refs found in the
    output ([dom_wrapper] is the wrapper element, [dom_img] the [<img>]),
    then [componentDidMount]. *)
Definition mount (env : Env) (cache : ImageCache) (r : Registry Callback)
    (this : nat) (p : Props) (dom_wrapper : Element) (dom_img : ImgElement)
  : result World :=
  i ← constructor env cache this p;
  let w := {| imageCache := cache; registry := r; calls := []; image := i |} in
  rendered ← render i;
  let w := set_imageRef (attach_imageRef dom_img rendered) w in
  let w := match rendered with
           | Some _ => handleRef env (Some dom_wrapper) w
           | None => w
           end in
  componentDidMount w.

(** The [<img>] currently in the output, if any: only then can the browser
    deliver its [load] and [error] events. *)
Definition rendered_img (w : World) : option ImgProps :=
  match render (image w) with
  | Ok (Some rendered) => picture rendered
  | _ => None
  end.

Definition run_handler (h : Handler) (w : World) : result World :=
  match h with
  | HandleImageLoaded => handleImageLoaded w
  end.

(** The [<img>]'s [load] event. *)
Definition img_load (w : World) : result World :=
  match rendered_img w with
  | Some img => run_handler (img_onLoad img) w
  | None => Ok w
  end.

(** The [<img>]'s [error] event. *)
Definition img_error (event : string) (w : World) : World :=
  match rendered_img w with
  | Some img =>
      match img_onError img with
      | Some h => call_hook (Error h event) w
      | None => w
      end
  | None => w
  end.

(** Running a callback handed back by the registry; callbacks of other
    component instances act on their own instance and leave this one alone. *)
Definition run_callback (dom_img : ImgElement) (w : result World) (f : Fired Callback)
  : result World :=
  w ← w;
  match fired_cb f with
  | OnIntersect instance =>
      if bool_decide (instance = self (image w)) then onIntersect dom_img w else Ok w
  end.

(** The observer delivers one batch of entries. *)
Definition intersect (dom_img : ImgElement) (entries : list Entry) (w : World)
  : result World :=
  let '(r, fired) := io_callback (registry w) entries in
  fold_left (run_callback dom_img) fired (Ok (set_registry r w)).

Inductive Event : Type :=
  | Intersect (dom_img : ImgElement) (entries : list Entry)
  | ImgLoad
  | ImgError (event : string)
  | Unmount.

Definition step (w : World) (e : Event) : result World :=
  match e with
  | Intersect dom_img entries => intersect dom_img entries w
  | ImgLoad => img_load w
  | ImgError event => Ok (img_error event w)
  | Unmount => componentWillUnmount w
  end.

Definition run (w : World) (es : list Event) : result World :=
  fold_left (λ w e, w ← w; step w e) es (Ok w).

(** ** Sample inputs *)

Definition variant (src : string) (media : option string) : Variant :=
  {| src := src; srcSet := src +:+ " 1x"; media := media;
     base64 := None; tracedSVG := None |}.

(** [<Img />] with nothing but the defaults. *)
Definition defaultProps : Props :=
  {| resolutions := None; sizes := None; fixed := None; fluid := None;
     critical := None; fadeIn := true; durationFadeIn := 500;
     loading := Some LoadingLazy; imgStyle := None; placeholderStyle := None;
     onLoad := None; onError := None; onStartLoad := None |}.

Definition fluidProps (src : string) : Props :=
  set_fluid defaultProps (Some (One (variant src None))).

(** A browser with IntersectionObserver and without native lazy loading. *)
Definition browser : Env :=
  {| window := Some {| IntersectionObserver := true |};
     HTMLImageElement_loading := false |}.

(** Server-side rendering: no [window], no [HTMLImageElement]. *)
Definition server : Env :=
  {| window := None; HTMLImageElement_loading := false |}.

Definition sample_state : State :=
  {| isVisible := true; imgLoaded := VBool false; imgCached := true;
     state_fadeIn := true |}.

(** An [<Img placeholderStyle={{ opacity: "0.5", transitionDelay: "1s" }} />]. *)
Definition styled_props : Props :=
  {| resolutions := None; sizes := None; fixed := None;
     fluid := Some (One (variant "a.jpg" None));
     critical := None; fadeIn := true; durationFadeIn := 500;
     loading := Some LoadingLazy; imgStyle := None;
     placeholderStyle :=
       Some (<["transitionDelay" := VStr "1s"]> {["opacity" := VStr "0.5"]});
     onLoad := None; onError := None; onStartLoad := None |}.

(** [<Img fluid={...} loading="eager" />] *)
Definition eagerProps : Props :=
  set_loading (fluidProps "a.jpg") (Some LoadingEager).

(** [<Img fluid={...} critical />] *)
Definition criticalProps : Props :=
  {| resolutions := None; sizes := None; fixed := None;
     fluid := Some (One (variant "a.jpg" None));
     critical := Some true; fadeIn := true; durationFadeIn := 500;
     loading := Some LoadingLazy; imgStyle := None; placeholderStyle := None;
     onLoad := None; onError := None; onStartLoad := None |}.

(** An [<img>] the browser resolved before any listener could attach. *)
Definition complete_img : ImgElement :=
  {| complete := true; currentSrc := Some "a.jpg" |}.

Definition entry_visible (el : Element) : Entry :=
  {| target := el; isIntersecting := Some true; intersectionRatio := (1%Z, 1%positive) |}.

(** Edge: no [isIntersecting], a positive ratio. *)
Definition entry_ratio_only (el : Element) : Entry :=
  {| target := el; isIntersecting := None; intersectionRatio := (1%Z, 4%positive) |}.

(** A lazily loaded image with all three hooks set. *)
Definition hookedProps : Props :=
  {| resolutions := None; sizes := None; fixed := None;
     fluid := Some (One (variant "a.jpg" None));
     critical := None; fadeIn := true; durationFadeIn := 500;
     loading := Some LoadingLazy; imgStyle := None; placeholderStyle := None;
     onLoad := Some "loaded"; onError := Some "failed";
     onStartLoad := Some "started" |}.

(** An [<img>] still loading. *)
Definition loading_img : ImgElement :=
  {| complete := false; currentSrc := None |}.

(** ** Notions used in the statements *)

(** Keys whose read on an object without that own property yields a truthy
    value inherited from [Object.prototype]. *)
Definition inherited (key : string) : bool :=
  truthy (ObjectPrototype_get (VObj "{}") key).

(** The caches the program can reach: the initial one, then one
    [activateCacheForImage] after another.  [keys] lists the keys the calls
    were made for, latest first. *)
Inductive CacheHistory : ImageCache → list string → Prop :=
  | history_init : CacheHistory imageCache_init []
  | history_mark c keys p key c' :
      CacheHistory c keys →
      getImageSrcKey (convertProps p) = Ok key →
      activateCacheForImage c p = Ok c' →
      CacheHistory c' (key :: keys).

(** [getIO()] hands back an observer: the shared one exists already or can
    be created now. *)
Definition observer_available {Cb} (env : Env) (r : Registry Cb) : bool :=
  match snd (getIO env r) with Some _ => true | None => false end.

(** [el] is under observation with callback [cb]. *)
Definition subscribed {Cb} (r : Registry Cb) (el : Element) (cb : Cb) : Prop :=
  listeners r !! el = Some cb ∧ ∃ observed, io r = Some observed ∧ el ∈ observed.

Definition world_of (c : ImageCache) (r : Registry Callback) (cs : list HookCall)
    (i : Image) : World :=
  {| imageCache := c; registry := r; calls := cs; image := i |}.

(** The caller's style props do not set the CSS property [key]. *)
Definition no_override (p : Props) (key : string) : Prop :=
  default ∅ (imgStyle p) !! key = None ∧
  default ∅ (placeholderStyle p) !! key = None.

(** The calls an [error] event makes: one call of the caller's [onError]
    with the event, when an [<img>] is in the output and the hook is set. *)
Definition forwarded (w : World) (event : string) : list HookCall :=
  match rendered_img w with
  | Some _ =>
      match onError (props (image w)) with
      | Some h => [Error h event]
      | None => []
      end
  | None => []
  end.

Section RegistryNotions.
Context {Cb : Type}.
Implicit Types (r : Registry Cb) (el : Element) (fired : list (Fired Cb)).

(** 1 while [el] has a callback waiting, 0 otherwise. *)
Definition pending r el : nat :=
  match listeners r !! el with Some _ => 1 | None => 0 end.

(** How many of the calls were for [el]. *)
Definition count_for el fired : nat :=
  length (List.filter (λ f, bool_decide (fired_target f = el)) fired).

(** [el] has no callback waiting and is not among the observer's targets. *)
Definition unregistered r el : Prop :=
  listeners r !! el = None ∧ ∀ observed, io r = Some observed → el ∉ observed.

(** When the call was made, its element had already been dropped from
    the listener table and from the observer's targets. *)
Definition fired_after_removal (f : Fired Cb) : Prop :=
  unregistered (fired_registry f) (fired_target f).

(** [r'] has no listener and no target that [r] lacks. *)
Definition registry_le r' r : Prop :=
  listeners r' ⊆ listeners r ∧
  ∀ observed', io r' = Some observed' →
               ∃ observed, io r = Some observed ∧ observed' ⊆ observed.

(** What a run of the observer callback from [r] to [r'] making the calls
    [fired] satisfies. *)
Record delivery r r' fired : Prop := {
  delivery_count : ∀ el, count_for el fired + pending r' el = pending r el;
  delivery_shrinks : registry_le r' r;
  delivery_removed : Forall fired_after_removal fired;
  delivery_later : Forall (λ f, registry_le r' (fired_registry f)) fired;
  delivery_cb : Forall (λ f, listeners r !! fired_target f = Some (fired_cb f)) fired;
}.
End RegistryNotions.

(** The variant an array of variants is represented by once grouped: the
    first one carrying a media condition, or else the first one. *)
Definition preferred (imageVariants : list Variant) : option Variant :=
  match List.find has_media imageVariants with
  | Some v => Some v
  | None => head imageVariants
  end.

(** The array [convertProps] builds [fluid] from: the legacy [sizes] when
    given, else [fluid]; likewise [resolutions] for [fixed]. *)
Definition supplied_fluid (p : Props) : option (list Variant) :=
  concat_array <$> (match sizes p with Some s => Some s | None => fluid p end).

Definition supplied_fixed (p : Props) : option (list Variant) :=
  concat_array <$> (match resolutions p with Some r => Some r | None => fixed p end).

(** No variants at all: [fluid] (or legacy [sizes]) and [fixed] (or legacy
    [resolutions]) are each absent or an empty array. *)
Definition no_variants (p : Props) : Prop :=
  (supplied_fluid p = None ∨ supplied_fluid p = Some []) ∧
  (supplied_fixed p = None ∨ supplied_fixed p = Some []).

Definition is_StartLoad (c : HookCall) : bool :=
  match c with StartLoad _ _ => true | _ => false end.

(** How many times [onStartLoad] was called. *)
Definition count_StartLoad (cs : list HookCall) : nat :=
  length (List.filter is_StartLoad cs).

(** What holds of the component and its surroundings at every point of its
    life after mounting. *)
Record consistent (w : World) : Prop := {
  cache_reachable : ∃ keys, CacheHistory (imageCache w) keys;
  hidden_unloaded :
    isVisible (state (image w)) = false →
    imgLoaded (state (image w)) = VBool false ∧ imgCached (state (image w)) = false;
  loaded_cached :
    truthy (imgLoaded (state (image w))) = true →
    ∃ v, inImageCache (imageCache w) (props (image w)) = Ok v ∧ truthy v = true;
  cleanup_safe :
    ∀ u, cleanUpListeners (image w) = Some u → unsub_observer u = true;
  startLoad_once :
    count_StartLoad (calls w)
    = if isVisible (state (image w)) && bool_decide (is_Some (onStartLoad (props (image w))))
      then 1 else 0;
}.

(** [w'] is a later point in the life of the component of [w]. *)
Record later (w w' : World) : Prop := {
  later_self : self (image w') = self (image w);
  later_props : props (image w') = props (image w);
  later_seenBefore : seenBefore (image w') = seenBefore (image w);
  later_useIOSupport : useIOSupport (image w') = useIOSupport (image w);
  later_cleanUp : cleanUpListeners (image w') = cleanUpListeners (image w);
  later_fadeIn : state_fadeIn (state (image w')) = state_fadeIn (state (image w));
  later_visible :
    isVisible (state (image w)) = true → isVisible (state (image w')) = true;
  later_loaded :
    truthy (imgLoaded (state (image w))) = true →
    truthy (imgLoaded (state (image w'))) = true;
  later_cache :
    ∀ q v, inImageCache (imageCache w) q = Ok v → truthy v = true →
           ∃ v', inImageCache (imageCache w') q = Ok v' ∧ truthy v' = true;
  later_calls : calls w `prefix_of` calls w';
}.

(** * Properties *)

(** ** [groupByMedia] *)

Lemma groupByMedia_fold (l withMedia without : list Variant) :
  fold_left groupByMedia_push l (withMedia, without)
  = (withMedia ++ List.filter has_media l,
     without ++ List.filter (λ v, negb (has_media v)) l).
Proof.
  revert withMedia without.
  induction l as [|v l IH]; intros withMedia without; simpl.
  - by rewrite !app_nil_r.
  - destruct (has_media v); simpl; rewrite IH, <- app_assoc; done.
Qed.

Lemma groupByMedia_eq (l : list Variant) :
  groupByMedia l
  = List.filter has_media l ++ List.filter (λ v, negb (has_media v)) l.
Proof. unfold groupByMedia. by rewrite groupByMedia_fold. Qed.

Lemma filter_split_Permutation {A} (p : A → bool) (l : list A) :
  List.filter p l ++ List.filter (λ x, negb (p x)) l ≡ₚ l.
Proof.
  induction l as [|a l IH]; simpl; [done|].
  destruct (p a); simpl.
  - by rewrite IH.
  - by rewrite <- Permutation_middle, IH.
Qed.

(** C10. [groupByMedia] is a stable partition of its input: the result is a
    permutation of the input, made of the variants with a media condition
    followed by those without, each group being the input's elements of
    that kind in their original order. *)
Theorem groupByMedia_stable_partition (imageVariants : list Variant) :
  groupByMedia imageVariants ≡ₚ imageVariants ∧
  ∃ withMedia without,
    groupByMedia imageVariants = withMedia ++ without ∧
    Forall (λ v, has_media v = true) withMedia ∧
    Forall (λ v, has_media v = false) without ∧
    withMedia = List.filter has_media imageVariants ∧
    without = List.filter (λ v, negb (has_media v)) imageVariants ∧
    withMedia `sublist_of` imageVariants ∧
    without `sublist_of` imageVariants.
Proof.
  split.
  - rewrite groupByMedia_eq. apply filter_split_Permutation.
  - eexists _, _. split; [apply groupByMedia_eq|].
    assert (Hsub : ∀ (p : Variant → bool) l, List.filter p l `sublist_of` l).
    { intros p l. induction l as [|a l IH]; simpl; [constructor|].
      destruct (p a); by constructor. }
    repeat split; try apply Hsub.
    + apply Forall_forall. intros v Hv.
      apply list_elem_of_In, filter_In in Hv. tauto.
    + apply Forall_forall. intros v Hv.
      apply list_elem_of_In, filter_In in Hv.
      destruct Hv as [_ Hv]. by apply negb_true_iff in Hv.
Qed.

(** ** The image cache *)

Lemma activateCacheForImage_key c p key :
  getImageSrcKey (convertProps p) = Ok key →
  activateCacheForImage c p = Ok (imageCache_set c key true).
Proof. unfold activateCacheForImage. by intros ->. Qed.

Lemma inImageCache_key c p key :
  getImageSrcKey (convertProps p) = Ok key →
  inImageCache c p = Ok (js_or (imageCache_get c key) (VBool false)).
Proof. unfold inImageCache. by intros ->. Qed.

(** Own properties of a reachable cache: exactly the marked keys other than
    [__proto__], each holding [true]. *)
Lemma CacheHistory_own c keys :
  CacheHistory c keys →
  ∀ key, c !! key = (if bool_decide (key ∈ keys ∧ key ≠ "__proto__")
                     then Some (VBool true) else None).
Proof.
  induction 1 as [|c keys p k c' Hc IH Hk Hact]; intros key.
  - rewrite bool_decide_eq_false_2; [done|]. set_solver.
  - rewrite (activateCacheForImage_key _ _ _ Hk) in Hact.
    injection Hact as <-. unfold imageCache_set.
    specialize (IH key).
    destruct (decide (k = "__proto__")) as [->|Hproto].
    + rewrite bool_decide_eq_true_2 by done. rewrite IH.
      apply (f_equal (λ b : bool, if b then Some (VBool true) else None)).
      apply bool_decide_ext. set_solver.
    + rewrite (bool_decide_eq_false_2 (k = "__proto__")) by done.
      destruct (decide (k = key)) as [->|Hne].
      * rewrite lookup_insert_eq, bool_decide_eq_true_2; [done|]. set_solver.
      * rewrite lookup_insert_ne, IH by done.
        apply (f_equal (λ b : bool, if b then Some (VBool true) else None)).
        apply bool_decide_ext. set_solver.
Qed.

(** A marked identity is reported as seen, whatever its name. *)
Lemma CacheHistory_marked_truthy c keys p key :
  CacheHistory c keys →
  getImageSrcKey (convertProps p) = Ok key →
  key ∈ keys →
  ∃ v, inImageCache c p = Ok v ∧ truthy v = true.
Proof.
  intros Hc Hk Hin. rewrite (inImageCache_key _ _ _ Hk).
  unfold imageCache_get. rewrite (CacheHistory_own _ _ Hc).
  case_bool_decide as Hd.
  - by eexists.
  - assert (key = "__proto__") as -> by (destruct (decide (key = "__proto__")); tauto).
    by eexists.
Qed.

(** For identities that do not name an inherited property, the lookup is
    [true] exactly for the marked ones and [false] otherwise. *)
Lemma CacheHistory_inImageCache c keys p key :
  CacheHistory c keys →
  getImageSrcKey (convertProps p) = Ok key →
  inherited key = false →
  inImageCache c p = Ok (VBool (bool_decide (key ∈ keys))).
Proof.
  intros Hc Hk Hinh. rewrite (inImageCache_key _ _ _ Hk).
  unfold imageCache_get. rewrite (CacheHistory_own _ _ Hc).
  assert (key ≠ "__proto__") as Hne by (intros ->; discriminate Hinh).
  destruct (decide (key ∈ keys)) as [Hin|Hin].
  - rewrite !bool_decide_eq_true_2 by tauto. done.
  - rewrite !bool_decide_eq_false_2 by tauto.
    unfold inherited in Hinh. unfold js_or. by rewrite Hinh.
Qed.

(** C5. On the freshly created cache the lookup for the identity
    [constructor] does not return [false]: the read falls through to
    [Object.prototype] and returns the [Object] function, which is truthy,
    although that identity was never marked. *)
Theorem inImageCache_fresh_constructor :
  CacheHistory imageCache_init [] ∧
  inImageCache imageCache_init (fluidProps "constructor") = Ok (VFun "Object") ∧
  inImageCache imageCache_init (fluidProps "constructor") ≠ Ok (VBool false) ∧
  truthy (VFun "Object") = true.
Proof. split; [constructor|]. by vm_compute. Qed.

(** ** Construction *)

Lemma truthy_js_and a b : truthy (js_and a b) = truthy a && truthy b.
Proof. unfold js_and. by destruct (truthy a) eqn:E; simpl; rewrite ?E. Qed.

Lemma truthy_js_or a b : truthy (js_or a b) = truthy a || truthy b.
Proof. unfold js_or. by destruct (truthy a) eqn:E; simpl; rewrite ?E. Qed.

Lemma hasIOSupport_isBrowser env :
  truthy (hasIOSupport env) = true → isBrowser env = true.
Proof.
  unfold hasIOSupport. rewrite truthy_js_and. simpl.
  by intros [? _]%andb_true_iff.
Qed.

(** C1. In a browser, a controller constructed for an identity that was
    marked loaded before starts with [isVisible = true] and [fadeIn = false],
    whatever the environment's lazy-loading capabilities and the [critical]
    and [loading] props are; [useIOSupport] is off, so [handleRef] creates no
    intersection subscription. *)
Theorem constructor_seen_before env c keys this p key :
  isBrowser env = true →
  CacheHistory c keys →
  getImageSrcKey (convertProps p) = Ok key →
  key ∈ keys →
  ∃ i, constructor env c this p = Ok i ∧
       isVisible (state i) = true ∧
       state_fadeIn (state i) = false ∧
       truthy (useIOSupport i) = false ∧
       ∀ r cs ref, handleRef env ref (world_of c r cs i) = world_of c r cs i.
Proof.
  intros Hb Hc Hk Hin.
  destruct (CacheHistory_marked_truthy _ _ _ _ Hc Hk Hin) as (v & Hv & Ht).
  unfold constructor. rewrite Hb, Hv. simpl.
  eexists; split; [done|]. simpl.
  assert (Hio : ∀ x, truthy (js_and x (VBool (js_not v))) = false).
  { intros x. rewrite truthy_js_and. unfold js_not. rewrite Ht. simpl.
    apply andb_false_r. }
  repeat split.
  - unfold js_not at 1. rewrite Hio. simpl. by rewrite !orb_true_r.
  - unfold js_not. by rewrite Ht.
  - apply Hio.
  - intros r cs [el|]; [|done]. unfold handleRef. simpl. by rewrite Hio.
Qed.

Lemma constructor_seen_before_witness :
  ∃ i, constructor browser (imageCache_set imageCache_init "a.jpg" true) 0
         (fluidProps "a.jpg") = Ok i ∧
       isVisible (state i) = true ∧
       state_fadeIn (state i) = false ∧
       truthy (useIOSupport i) = false ∧
       ∀ r cs ref,
         handleRef browser ref
           (world_of (imageCache_set imageCache_init "a.jpg" true) r cs i)
         = world_of (imageCache_set imageCache_init "a.jpg" true) r cs i.
Proof.
  apply (constructor_seen_before browser _ ["a.jpg"] 0 (fluidProps "a.jpg") "a.jpg").
  - reflexivity.
  - apply (history_mark imageCache_init [] (fluidProps "a.jpg") "a.jpg");
      [constructor|reflexivity..].
  - reflexivity.
  - apply list_elem_of_here.
Defined.

(** Where the cache lookup itself returns [false], with [critical] off,
    [loading] other than [eager], no native lazy loading and
    IntersectionObserver available, the controller starts with
    [isVisible = false]; when React hands [handleRef] the wrapper element,
    the element is put under observation with this instance's callback. *)
Lemma constructor_pending env c this p :
  inImageCache c p = Ok (VBool false) →
  is_critical p = false →
  loading_is_eager p = false →
  hasNativeLazyLoadSupport env = false →
  truthy (hasIOSupport env) = true →
  ∃ i, constructor env c this p = Ok i ∧
       isVisible (state i) = false ∧
       imgLoaded (state i) = VBool false ∧
       ∀ r cs el,
         let w := handleRef env (Some el) (world_of c r cs i) in
         subscribed (registry w) el (OnIntersect this) ∧
         cleanUpListeners (image w) = Some {| unsub_observer := true; unsub_el := el |}.
Proof.
  intros Hc Hcrit Hload Hnative Hio.
  pose proof (hasIOSupport_isBrowser _ Hio) as Hb.
  unfold constructor. rewrite Hb, Hc. simpl.
  eexists; split; [done|]. simpl.
  rewrite Hcrit, Hnative. simpl.
  assert (Huse : truthy (js_and (js_and (js_and (VBool true) (hasIOSupport env))
                   (VBool true)) (VBool (js_not (VBool false)))) = true).
  { rewrite !truthy_js_and. simpl. by rewrite Hio. }
  repeat split.
  - unfold js_not at 1. rewrite Huse. simpl.
    rewrite Hload. simpl. by rewrite ?andb_false_r.
  - unfold handleRef. simpl. rewrite Huse.
    unfold listenToIntersections, getIO.
    assert (Hw : isBrowser env && truthy (window_IntersectionObserver env) = true).
    { unfold hasIOSupport in Hio. rewrite truthy_js_and in Hio. exact Hio. }
    destruct (io r) as [observed|] eqn:Hr; [|rewrite Hw]; simpl.
    + apply lookup_insert_eq.
    + apply lookup_insert_eq.
  - unfold handleRef. simpl. rewrite Huse.
    unfold listenToIntersections, getIO.
    assert (Hw : isBrowser env && truthy (window_IntersectionObserver env) = true).
    { unfold hasIOSupport in Hio. rewrite truthy_js_and in Hio. exact Hio. }
    destruct (io r) as [observed|] eqn:Hr; [|rewrite Hw]; simpl.
    + rewrite Hr. simpl. eexists; split; [done|]. set_solver.
    + eexists; split; [done|]. set_solver.
  - unfold handleRef. simpl. rewrite Huse.
    unfold listenToIntersections, getIO.
    assert (Hw : isBrowser env && truthy (window_IntersectionObserver env) = true).
    { unfold hasIOSupport in Hio. rewrite truthy_js_and in Hio. exact Hio. }
    destruct (io r) as [observed|] eqn:Hr; [|rewrite Hw]; by simpl.
Qed.

Lemma constructor_pending_witness :
  ∃ i, constructor browser imageCache_init 0 (fluidProps "a.jpg") = Ok i ∧
       isVisible (state i) = false ∧
       imgLoaded (state i) = VBool false ∧
       ∀ r cs el,
         let w := handleRef browser (Some el) (world_of imageCache_init r cs i) in
         subscribed (registry w) el (OnIntersect 0) ∧
         cleanUpListeners (image w) = Some {| unsub_observer := true; unsub_el := el |}.
Proof.
  apply (constructor_pending browser imageCache_init 0 (fluidProps "a.jpg"));
    reflexivity.
Defined.

(** The cache reports [false] for every identity that was never marked and
    does not name a property inherited from [Object.prototype]. *)
Lemma inImageCache_never_marked c keys p key :
  CacheHistory c keys →
  getImageSrcKey (convertProps p) = Ok key →
  inherited key = false →
  key ∉ keys →
  inImageCache c p = Ok (VBool false).
Proof.
  intros Hc Hk Hinh Hin.
  rewrite (CacheHistory_inImageCache _ _ _ _ Hc Hk Hinh).
  by rewrite bool_decide_eq_false_2.
Qed.

(** C2. On the fresh cache, where no identity was ever marked, with
    [critical] off, [loading] lazy, no native lazy loading and
    IntersectionObserver available, the controller for the identity
    [constructor] does not start pending: the cache lookup returns the
    inherited [Object] function, so the controller is taken as seen before,
    starts with [isVisible = true], and [handleRef] registers nothing. *)
Theorem constructor_unmarked_not_pending :
  CacheHistory imageCache_init [] ∧
  getImageSrcKey (convertProps (fluidProps "constructor")) = Ok "constructor" ∧
  "constructor" ∉ ([] : list string) ∧
  is_critical (fluidProps "constructor") = false ∧
  loading_is_eager (fluidProps "constructor") = false ∧
  hasNativeLazyLoadSupport browser = false ∧
  truthy (hasIOSupport browser) = true ∧
  ∃ i, constructor browser imageCache_init 0 (fluidProps "constructor") = Ok i ∧
       seenBefore i = VFun "Object" ∧
       isVisible (state i) = true ∧
       state_fadeIn (state i) = false ∧
       truthy (useIOSupport i) = false ∧
       ∀ (r : Registry Callback) cs el,
         handleRef browser (Some el) (world_of imageCache_init r cs i)
         = world_of imageCache_init r cs i.
Proof.
  split; [constructor|]. split; [reflexivity|].
  split; [apply not_elem_of_nil|].
  do 4 (split; [reflexivity|]).
  eexists. split; [reflexivity|].
  do 4 (split; [reflexivity|]).
  intros r cs el. reflexivity.
Qed.

(** ** Derived presentation state *)

Lemma spread_lookup_base (base over : Style) key :
  over !! key = None → spread base over !! key = base !! key.
Proof. intros H. unfold spread. by apply lookup_union_r. Qed.

Lemma spread_lookup_over (base over : Style) key v :
  over !! key = Some v → spread base over !! key = Some v.
Proof. intros H. unfold spread. by apply lookup_union_Some_l. Qed.

Lemma imagePlaceholderStyle_no_override p s key :
  no_override p key →
  imagePlaceholderStyle p s !! key
  = spread_if {["opacity" := VNum (if truthy (imgLoaded s) then 0 else 1)]}
      (shouldFadeIn s) (delayHideStyle p) !! key.
Proof.
  intros [Himg Hph]. unfold imagePlaceholderStyle.
  by rewrite !spread_lookup_base.
Qed.

(** C3. For every controller state (and whatever the props),
    [shouldReveal] is [fadeIn === false || imgLoaded] and [shouldFadeIn] is
    [fadeIn === true && !imgCached]; the placeholder style is a derived
    style with the caller's [imgStyle] and [placeholderStyle] merged on
    top, and the derived style holds opacity [0] when [imgLoaded] and [1]
    otherwise, the hide-transition delay of the fade duration exactly when
    [shouldFadeIn] holds, and nothing else.  Hence the placeholder shows
    these very values wherever the caller's styles do not set [opacity],
    resp. [transitionDelay], themselves. *)
Theorem presentation_state (p : Props) (s : State) :
  truthy (shouldReveal s) = negb (state_fadeIn s) || truthy (imgLoaded s) ∧
  shouldFadeIn s = state_fadeIn s && negb (imgCached s) ∧
  (∃ derived : Style,
     imagePlaceholderStyle p s
     = spread (spread derived (default ∅ (imgStyle p)))
              (default ∅ (placeholderStyle p)) ∧
     derived !! "opacity" = Some (VNum (if truthy (imgLoaded s) then 0 else 1)) ∧
     derived !! "transitionDelay"
     = (if shouldFadeIn s then Some (VStr (ms (durationFadeIn p))) else None) ∧
     ∀ key, key ≠ "opacity" → key ≠ "transitionDelay" → derived !! key = None) ∧
  (no_override p "opacity" →
   imagePlaceholderStyle p s !! "opacity"
   = Some (VNum (if truthy (imgLoaded s) then 0 else 1))) ∧
  (no_override p "transitionDelay" →
   imagePlaceholderStyle p s !! "transitionDelay"
   = if shouldFadeIn s then Some (VStr (ms (durationFadeIn p))) else None).
Proof.
  assert (spread_if {["opacity" := VNum (if truthy (imgLoaded s) then 0 else 1)]}
            (shouldFadeIn s) (delayHideStyle p) !! "opacity"
          = Some (VNum (if truthy (imgLoaded s) then 0 else 1))) as Hop.
  { unfold spread_if, delayHideStyle. destruct (shouldFadeIn s).
    - rewrite spread_lookup_base; [apply lookup_singleton_eq|].
      by apply lookup_singleton_ne.
    - apply lookup_singleton_eq. }
  assert (spread_if {["opacity" := VNum (if truthy (imgLoaded s) then 0 else 1)]}
            (shouldFadeIn s) (delayHideStyle p) !! "transitionDelay"
          = (if shouldFadeIn s then Some (VStr (ms (durationFadeIn p))) else None))
    as Hdelay.
  { unfold spread_if, delayHideStyle. destruct (shouldFadeIn s).
    - apply spread_lookup_over, lookup_singleton_eq.
    - by apply lookup_singleton_ne. }
  split; [|split; [|split; [|split]]].
  - unfold shouldReveal. rewrite truthy_js_or. simpl. by destruct (state_fadeIn s).
  - unfold shouldFadeIn. by destruct (state_fadeIn s).
  - eexists. split; [reflexivity|]. split; [exact Hop|]. split; [exact Hdelay|].
    intros key Hk1 Hk2. unfold spread_if, delayHideStyle.
    destruct (shouldFadeIn s).
    + rewrite spread_lookup_base by (by apply lookup_singleton_ne).
      by apply lookup_singleton_ne.
    + by apply lookup_singleton_ne.
  - intros H. by rewrite (imagePlaceholderStyle_no_override _ _ _ H).
  - intros H. by rewrite (imagePlaceholderStyle_no_override _ _ _ H).
Qed.

Lemma presentation_state_witness :
  no_override defaultProps "opacity" ∧
  no_override defaultProps "transitionDelay" ∧
  imagePlaceholderStyle defaultProps sample_state !! "opacity" = Some (VNum 1) ∧
  imagePlaceholderStyle defaultProps sample_state !! "transitionDelay" = None.
Proof.
  assert (Ho : no_override defaultProps "opacity") by (split; reflexivity).
  assert (Hd : no_override defaultProps "transitionDelay") by (split; reflexivity).
  split; [exact Ho|]. split; [exact Hd|].
  destruct (presentation_state defaultProps sample_state)
    as (_ & _ & _ & Hop & Hdelay).
  split; [exact (Hop Ho)|exact (Hdelay Hd)].
Defined.

(** Every placeholder in the output carries exactly this style. *)
Lemma render_placeholder_style i rendered :
  render i = Ok (Some rendered) →
  Forall (λ ph, placeholder_style ph
                = imagePlaceholderStyle (convertProps (props i)) (state i))
         (placeholders rendered).
Proof.
  unfold render. intros H.
  assert (∀ m image,
    Forall (λ ph, placeholder_style ph
                  = imagePlaceholderStyle (convertProps (props i)) (state i))
           (placeholders (render_children i (convertProps (props i)) m image))) as Hc.
  { intros m image. unfold render_children. simpl.
    apply Forall_app. split.
    - destruct (if_truthy (base64 image)); simpl; by repeat constructor.
    - destruct (if_truthy (tracedSVG image)); simpl; by repeat constructor. }
  destruct (fluid (convertProps (props i))) as [f|]; [|destruct (fixed _) as [f|]].
  - destruct (first_of (Some f)); [|done]. injection H as <-. apply Hc.
  - destruct (first_of (Some f)); [|done]. injection H as <-. apply Hc.
  - done.
Qed.

(** ** The intersection registry *)

Section RegistryFacts.
Context {Cb : Type}.
Implicit Types (r : Registry Cb) (el : Element) (fired : list (Fired Cb)).

Lemma registry_le_refl r : registry_le r r.
Proof. split; [done|]. intros observed ->. by eexists. Qed.

Lemma registry_le_trans r1 r2 r3 :
  registry_le r3 r2 → registry_le r2 r1 → registry_le r3 r1.
Proof.
  intros [Hl32 Ho32] [Hl21 Ho21]. split; [by etrans|].
  intros o3 H3. destruct (Ho32 _ H3) as (o2 & H2 & Hsub32).
  destruct (Ho21 _ H2) as (o1 & H1 & Hsub21).
  exists o1. split; [done|]. by etrans.
Qed.

Lemma registry_le_unregistered r' r el :
  registry_le r' r → unregistered r el → unregistered r' el.
Proof.
  intros [Hl Ho] [Hlk Hobs]. split.
  - destruct (listeners r' !! el) eqn:E; [|done].
    by rewrite (lookup_weaken _ _ _ _ E Hl) in Hlk.
  - intros o' H'. destruct (Ho _ H') as (o & H & Hsub).
    specialize (Hobs _ H). set_solver.
Qed.

Lemma count_for_app el fired1 fired2 :
  count_for el (fired1 ++ fired2) = count_for el fired1 + count_for el fired2.
Proof. unfold count_for. by rewrite List.filter_app, length_app. Qed.

Lemma count_for_pos el fired :
  0 < count_for el fired → ∃ f, f ∈ fired ∧ fired_target f = el.
Proof.
  induction fired as [|f fired IH]; unfold count_for; simpl; [lia|].
  case_bool_decide as Hf; simpl.
  - intros _. exists f. split; [apply list_elem_of_here|done].
  - intros H. destruct (IH H) as (g & Hg & Ht).
    exists g. split; [by apply list_elem_of_further|done].
Qed.

Lemma delivery_refl r : delivery r r [].
Proof. split; try done. apply registry_le_refl. Qed.

Lemma delivery_trans r1 r2 r3 fired1 fired2 :
  delivery r1 r2 fired1 → delivery r2 r3 fired2 →
  delivery r1 r3 (fired1 ++ fired2).
Proof.
  intros [Hc1 Hs1 Hr1 Hl1 Hcb1] [Hc2 Hs2 Hr2 Hl2 Hcb2]. split.
  - intros el. rewrite count_for_app. specialize (Hc1 el). specialize (Hc2 el). lia.
  - by eapply registry_le_trans.
  - by apply Forall_app.
  - apply Forall_app. split; [|done].
    eapply Forall_impl; [exact Hl1|]. simpl. intros f Hf.
    by eapply registry_le_trans.
  - apply Forall_app. split; [done|].
    eapply Forall_impl; [exact Hcb2|]. simpl. intros f Hf.
    destruct Hs1 as [Hs1 _]. by eapply lookup_weaken.
Qed.

Lemma io_entry_delivery r fired entry :
  ∃ r' new, io_entry (r, fired) entry = (r', fired ++ new) ∧ delivery r r' new.
Proof.
  unfold io_entry.
  destruct (listeners r !! target entry) as [cb|] eqn:Hcb;
    [destruct (entry_intersects entry)|].
  - eexists _, [_]. split; [done|]. split.
    + intros el. unfold count_for, pending. simpl.
      destruct (decide (target entry = el)) as [<-|Hne].
      * rewrite bool_decide_eq_true_2 by done.
        by rewrite lookup_delete_eq, Hcb.
      * rewrite bool_decide_eq_false_2 by done.
        by rewrite lookup_delete_ne.
    + split; simpl; [apply delete_subseteq|].
      intros observed'. destruct (io r) as [observed|]; simpl; [|done].
      intros [= <-]. exists observed. split; [done|]. set_solver.
    + constructor; [|done]. split; simpl.
      * apply lookup_delete_eq.
      * intros observed. destruct (io r); simpl; [|done].
        intros [= <-]. set_solver.
    + constructor; [|done]. apply registry_le_refl.
    + by constructor.
  - exists r, []. rewrite app_nil_r. split; [done|apply delivery_refl].
  - exists r, []. rewrite app_nil_r. split; [done|apply delivery_refl].
Qed.

Lemma io_entries_delivery entries r fired :
  ∃ r' new, fold_left io_entry entries (r, fired) = (r', fired ++ new) ∧
            delivery r r' new.
Proof.
  revert r fired.
  induction entries as [|entry entries IH]; intros r fired; cbn [fold_left].
  - exists r, []. rewrite app_nil_r. split; [done|apply delivery_refl].
  - destruct (io_entry_delivery r fired entry) as (r1 & new1 & -> & H1).
    destruct (IH r1 (fired ++ new1)) as (r2 & new2 & -> & H2).
    exists r2, (new1 ++ new2). rewrite app_assoc. split; [done|].
    by eapply delivery_trans.
Qed.

Lemma io_callback_delivery r entries :
  ∃ r' new, io_callback r entries = (r', new) ∧ delivery r r' new.
Proof.
  unfold io_callback.
  destruct (io_entries_delivery entries r []) as (r' & new & -> & H). eauto.
Qed.

Lemma io_batches_delivery batches r fired :
  ∃ r' new,
    fold_left
      (λ '(r, calls) entries,
         let '(r', calls') := io_callback r entries in (r', calls ++ calls'))
      batches (r, fired) = (r', fired ++ new) ∧
    delivery r r' new.
Proof.
  revert r fired.
  induction batches as [|entries batches IH]; intros r fired; cbn [fold_left].
  - exists r, []. rewrite app_nil_r. split; [done|apply delivery_refl].
  - destruct (io_callback_delivery r entries) as (r1 & new1 & -> & H1).
    destruct (IH r1 (fired ++ new1)) as (r2 & new2 & -> & H2).
    exists r2, (new1 ++ new2). rewrite app_assoc. split; [done|].
    by eapply delivery_trans.
Qed.

Lemma io_reports_delivery r batches :
  ∃ r' new, io_reports r batches = (r', new) ∧ delivery r r' new.
Proof.
  unfold io_reports.
  destruct (io_batches_delivery batches r []) as (r' & new & -> & H). eauto.
Qed.

(** Once a call for [el] was made, [el] stays unregistered. *)
Lemma delivery_fired_unregistered r r' fired el :
  delivery r r' fired → 0 < count_for el fired → unregistered r' el.
Proof.
  intros [_ _ Hr Hl _] Hpos.
  destruct (count_for_pos _ _ Hpos) as (f & Hf & <-).
  rewrite Forall_forall in Hr, Hl.
  eapply registry_le_unregistered; [by apply Hl|by apply Hr].
Qed.

(** C4. For an element registered with callback [cb], over any sequence
    of batches of observer entries: the callback runs at most once; it
    has run exactly when the element is no longer in the listener table;
    each call made for the element is a call of [cb]; and every call is
    made after its element was removed from the listener table and from
    the observer's targets. *)
Theorem callback_at_most_once r el (cb : Cb) (batches : list (list Entry)) :
  listeners r !! el = Some cb →
  ∃ r' fired,
    io_reports r batches = (r', fired) ∧
    (count_for el fired ≤ 1)%nat ∧
    (count_for el fired = 1 ↔ listeners r' !! el = None) ∧
    Forall (λ f, fired_target f = el → fired_cb f = cb) fired ∧
    Forall fired_after_removal fired.
Proof.
  intros Hcb.
  destruct (io_reports_delivery r batches) as (r' & fired & Hrun & [Hc Hs Hr Hl Hf]).
  exists r', fired. split; [done|].
  specialize (Hc el). unfold pending in Hc. rewrite Hcb in Hc.
  repeat split.
  - lia.
  - intros H1. destruct (listeners r' !! el); [lia|done].
  - intros Hn. rewrite Hn in Hc. lia.
  - eapply Forall_impl; [exact Hf|]. simpl. intros f Hlk <-. congruence.
  - done.
Qed.

(** *** Unsubscribing *)

Lemma run_unsubscribe_unregistered r el :
  unregistered r el →
  run_unsubscribe {| unsub_observer := true; unsub_el := el |} r = Ok r.
Proof.
  intros [Hlk Hobs]. unfold run_unsubscribe. simpl. f_equal.
  destruct r as [o l]. unfold listeners_delete, io_unobserve. simpl in *.
  f_equal.
  - destruct o as [observed|]; simpl; [|done]. f_equal.
    specialize (Hobs _ eq_refl). set_solver.
  - by apply delete_id.
Qed.

Lemma run_unsubscribe_result r el r' :
  run_unsubscribe {| unsub_observer := true; unsub_el := el |} r = Ok r' →
  unregistered r' el ∧
  (∀ el', el' ≠ el → listeners r' !! el' = listeners r !! el').
Proof.
  unfold run_unsubscribe. simpl. intros [= <-]. repeat split; simpl.
  - apply lookup_delete_eq.
  - intros observed. destruct (io r); simpl; [|done]. intros [= <-]. set_solver.
  - intros el' Hne. by apply lookup_delete_ne.
Qed.

(** C7. Whenever [listenToIntersections] has an observer to subscribe
    with, it puts the element under observation, and the function it
    returns never throws: a first call unregisters the element, a second
    call changes nothing, and a call made after the element's callback has
    run changes nothing either. *)
Theorem unsubscribe_idempotent env r el (cb : Cb) :
  observer_available env r = true →
  ∃ r1 unsubscribe,
    listenToIntersections env r el cb = (r1, unsubscribe) ∧
    subscribed r1 el cb ∧
    (∃ r2, run_unsubscribe unsubscribe r1 = Ok r2 ∧
           unregistered r2 el ∧
           run_unsubscribe unsubscribe r2 = Ok r2) ∧
    (∀ batches r' fired,
       io_reports r1 batches = (r', fired) →
       count_for el fired = 1 →
       run_unsubscribe unsubscribe r' = Ok r').
Proof.
  intros Hav.
  assert (∃ r1, listenToIntersections env r el cb
                = (r1, {| unsub_observer := true; unsub_el := el |}) ∧
                subscribed r1 el cb) as (r1 & Hsub & Hr1).
  { unfold observer_available in Hav. unfold listenToIntersections.
    destruct (getIO env r) as [r0 [observed|]] eqn:Hget; [|done].
    eexists. split; [done|].
    assert (is_Some (io r0)) as [observed0 Hr0].
    { unfold getIO in Hget. destruct (io r) as [o|] eqn:Hr.
      - injection Hget as <- _. by rewrite Hr.
      - destruct (isBrowser env && truthy (window_IntersectionObserver env));
          [|done].
        injection Hget as <- _. by eexists. }
    split; simpl.
    - apply lookup_insert_eq.
    - rewrite Hr0. simpl. eexists. split; [done|]. set_solver. }
  exists r1, {| unsub_observer := true; unsub_el := el |}.
  repeat split; try apply Hr1; [done| |].
  - eexists. split; [done|].
    destruct (run_unsubscribe_result r1 el _ eq_refl) as [Hun _].
    split; [done|]. by apply run_unsubscribe_unregistered.
  - intros batches r' fired Hrun Hcount.
    destruct (io_reports_delivery r1 batches) as (r'' & fired' & Hrun' & Hd).
    rewrite Hrun in Hrun'. injection Hrun' as <- <-.
    apply run_unsubscribe_unregistered.
    eapply delivery_fired_unregistered; [done|lia].
Qed.

(** The component subscribes only where [useIOSupport] holds, and there an
    observer is available. *)
Lemma hasIOSupport_observer_available env r :
  truthy (hasIOSupport env) = true → observer_available env r = true.
Proof.
  unfold hasIOSupport. rewrite truthy_js_and. simpl. intros Hw.
  unfold observer_available, getIO.
  destruct (io r); [done|]. by rewrite Hw.
Qed.

(** Without an observer nothing is subscribed, and the function handed
    back raises when called: it dereferences the [undefined] observer. *)
Lemma unsubscribe_without_observer env r el (cb : Cb) :
  observer_available env r = false →
  ∃ unsubscribe,
    listenToIntersections env r el cb = (r, unsubscribe) ∧
    run_unsubscribe unsubscribe r
    = Throw (TypeError "Cannot read property 'unobserve' of undefined").
Proof.
  unfold observer_available, listenToIntersections, getIO.
  destruct (io r) as [o|]; [done|].
  destruct (isBrowser env && truthy (window_IntersectionObserver env)); [done|].
  intros _. by eexists.
Qed.
End RegistryFacts.

Lemma callback_at_most_once_witness :
  ∃ r' fired,
    io_reports (fst (listenToIntersections browser registry_init 7 (OnIntersect 0)))
      [[entry_visible 7; entry_ratio_only 7]; [entry_visible 7]] = (r', fired) ∧
    (count_for 7 fired ≤ 1)%nat ∧
    (count_for 7 fired = 1 ↔ listeners r' !! 7 = None) ∧
    Forall (λ f, fired_target f = 7 → fired_cb f = OnIntersect 0) fired ∧
    Forall fired_after_removal fired.
Proof.
  apply (callback_at_most_once
           (fst (listenToIntersections browser registry_init 7 (OnIntersect 0)))
           7 (OnIntersect 0)).
  reflexivity.
Defined.

Lemma unsubscribe_idempotent_witness :
  ∃ r1 unsubscribe,
    listenToIntersections browser registry_init 7 (OnIntersect 0) = (r1, unsubscribe) ∧
    subscribed r1 7 (OnIntersect 0) ∧
    (∃ r2, run_unsubscribe unsubscribe r1 = Ok r2 ∧
           unregistered r2 7 ∧
           run_unsubscribe unsubscribe r2 = Ok r2) ∧
    (∀ batches r' fired,
       io_reports r1 batches = (r', fired) →
       count_for 7 fired = 1 →
       run_unsubscribe unsubscribe r' = Ok r').
Proof.
  apply (unsubscribe_idempotent browser registry_init 7 (OnIntersect 0)).
  reflexivity.
Defined.

(** ** Missing variants *)

(** In a browser the constructor looks the props up in the cache, and the
    lookup raises when there is no first variant to take the key from. *)
Lemma constructor_no_variants_throws env c this p :
  isBrowser env = true →
  getImageSrcKey (convertProps p)
    = Throw (TypeError "Cannot read property 'src' of undefined") →
  constructor env c this p
    = Throw (TypeError "Cannot read property 'src' of undefined").
Proof.
  intros Hb Hk. unfold constructor, inImageCache. by rewrite Hb, Hk.
Qed.

(** Without [window] the constructor skips the lookup, and [render]
    returns [null]. *)
Lemma server_no_variants_null env c this p :
  isBrowser env = false →
  fluid (convertProps p) = None →
  fixed (convertProps p) = None →
  ∃ i, constructor env c this p = Ok i ∧ render i = Ok None.
Proof.
  intros Hb Hfluid Hfixed. unfold constructor. rewrite Hb. simpl.
  eexists. split; [done|]. unfold render. simpl. by rewrite Hfluid, Hfixed.
Qed.

(** C6. In a browser, constructing [<Img />] without [fluid] and without
    [fixed] raises a TypeError in the constructor's cache lookup, so mounting
    fails before [render] can return [null]; only without [window] does
    construction succeed and [render] return [null]. *)
Theorem constructor_without_variants_throws :
  fluid defaultProps = None ∧ fixed defaultProps = None ∧
  constructor browser imageCache_init 0 defaultProps
    = Throw (TypeError "Cannot read property 'src' of undefined") ∧
  mount browser imageCache_init registry_init 0 defaultProps 7
    {| complete := false; currentSrc := None |}
    = Throw (TypeError "Cannot read property 'src' of undefined") ∧
  (∃ i, constructor server imageCache_init 0 defaultProps = Ok i ∧
        render i = Ok None).
Proof.
  repeat split; try reflexivity.
  by apply server_no_variants_null.
Qed.

(** ** Load errors *)

Lemma run_cons w e es : run w (e :: es) = (step w e ≫= λ w', run w' es).
Proof.
  unfold run. simpl. destruct (step w e) as [w'|x]; simpl; [done|].
  induction es as [|e' es IH]; simpl; [done|exact IH].
Qed.

(** What [render] hands to the [<img>]: the component's own load handler
    and the caller's error hook, untouched. *)
Lemma rendered_img_handlers w img :
  rendered_img w = Some img →
  isVisible (state (image w)) = true ∧
  img_onLoad img = HandleImageLoaded ∧
  img_onError img = onError (props (image w)).
Proof.
  unfold rendered_img, render.
  assert (∀ m first,
    picture (render_children (image w) (convertProps (props (image w))) m first)
      = Some img →
    isVisible (state (image w)) = true ∧
    img_onLoad img = HandleImageLoaded ∧
    img_onError img = onError (props (image w))) as Hc.
  { intros m v. unfold render_children. simpl.
    destruct (isVisible (state (image w))); [|done]. by intros [= <-]. }
  destruct (fluid (convertProps (props (image w)))) as [f|];
    [|destruct (fixed _) as [f|]]; try done;
    destruct (first_of (Some f)); try done; apply Hc.
Qed.

Lemma img_error_image event w : image (img_error event w) = image w.
Proof.
  unfold img_error. destruct (rendered_img w) as [img|]; [|done].
  by destruct (img_onError img).
Qed.

Lemma img_error_rendered_img event w :
  rendered_img (img_error event w) = rendered_img w.
Proof. unfold rendered_img. by rewrite img_error_image. Qed.

Lemma img_error_spec event w :
  image (img_error event w) = image w ∧
  imageCache (img_error event w) = imageCache w ∧
  registry (img_error event w) = registry w ∧
  calls (img_error event w) = calls w ++ forwarded w event.
Proof.
  split; [apply img_error_image|].
  unfold img_error, forwarded.
  destruct (rendered_img w) as [img|] eqn:Himg; [|by rewrite app_nil_r].
  destruct (rendered_img_handlers _ _ Himg) as (_ & _ & ->).
  destruct (onError (props (image w))); [done|by rewrite app_nil_r].
Qed.

(** C8. Whatever number of [error] events the [<img>] delivers, the
    component's state is untouched (in particular [imgLoaded] keeps its
    value and never becomes [true]), the image cache is untouched, and each
    event is passed to the caller's [onError] hook. *)
Theorem load_error_forwarded (w : World) (events : list string) :
  ∃ w', run w (ImgError <$> events) = Ok w' ∧
        state (image w') = state (image w) ∧
        imgLoaded (state (image w')) = imgLoaded (state (image w)) ∧
        imageCache w' = imageCache w ∧
        registry w' = registry w ∧
        calls w' = calls w ++ concat (forwarded w <$> events).
Proof.
  revert w. induction events as [|event events IH]; intros w.
  - exists w. simpl. by rewrite app_nil_r.
  - rewrite fmap_cons, run_cons. simpl.
    destruct (IH (img_error event w)) as (w' & Hrun & Hs & Hl & Hc & Hr & Hcalls).
    destruct (img_error_spec event w) as (Hi & Hc0 & Hr0 & Hcalls0).
    exists w'. split; [done|].
    assert (forwarded (img_error event w) <$> events = forwarded w <$> events) as Hf.
    { apply list_fmap_ext. intros _ e _. unfold forwarded.
      by rewrite img_error_rendered_img, Hi. }
    rewrite Hs, Hc, Hr, Hcalls, Hi, Hc0, Hr0, Hcalls0, Hf.
    repeat split; try done.
    simpl. by rewrite app_assoc.
Qed.

(** A visible image with an [onError] hook: the hook receives the event. *)
Example load_error_forwarded_visible :
  ∃ w, mount browser imageCache_init registry_init 0
         {| resolutions := None; sizes := None; fixed := None;
            fluid := Some (One (variant "a.jpg" None));
            critical := Some true; fadeIn := true; durationFadeIn := 500;
            loading := Some LoadingLazy; imgStyle := None;
            placeholderStyle := None;
            onLoad := None; onError := Some "report"; onStartLoad := None |}
         7 {| complete := false; currentSrc := None |} = Ok w ∧
       forwarded w "error" = [Error "report" "error"] ∧
       imgLoaded (state (image (img_error "error" w))) = VBool false ∧
       imageCache (img_error "error" w) = imageCache_init.
Proof. eexists. split; [reflexivity|]. by vm_compute. Qed.

(** ** The mount-time completeness check *)

Lemma handleImageLoaded_spec w key :
  getImageSrcKey (convertProps (props (image w))) = Ok key →
  ∃ w', handleImageLoaded w = Ok w' ∧
        imgLoaded (state (image w')) = VBool true ∧
        imageCache w' = imageCache_set (imageCache w) key true ∧
        calls w' = calls w ++ match onLoad (props (image w)) with
                              | Some h => [Load h]
                              | None => []
                              end.
Proof.
  intros Hk. unfold handleImageLoaded.
  rewrite (activateCacheForImage_key _ _ _ Hk). simpl.
  destruct (onLoad (props (image w))); eexists; (split; [done|]); simpl;
    by rewrite ?app_nil_r.
Qed.

(** With [critical] set, an [<img>] that is already complete when the
    component mounts is taken as loaded at once. *)
Lemma componentDidMount_critical w img key :
  is_critical (props (image w)) = true →
  imageRef (image w) = Some img →
  complete img = true →
  getImageSrcKey (convertProps (props (image w))) = Ok key →
  ∃ w', componentDidMount w = Ok w' ∧
        imgLoaded (state (image w')) = VBool true ∧
        imageCache w' = imageCache_set (imageCache w) key true.
Proof.
  intros Hcrit Href Hcomplete Hk. unfold componentDidMount.
  assert (∀ w0 : World,
    image w0 = image w → imageCache w0 = imageCache w →
    ∃ w', (if is_critical (props (image w0)) then
             match imageRef (image w0) with
             | Some img => if complete img then handleImageLoaded w0 else Ok w0
             | None => Ok w0
             end
           else Ok w0) = Ok w' ∧
          imgLoaded (state (image w')) = VBool true ∧
          imageCache w' = imageCache_set (imageCache w) key true) as Hcheck.
  { intros w0 Hi Hc. rewrite Hi, Hcrit, Href, Hcomplete.
    destruct (handleImageLoaded_spec w0 key) as (w' & -> & Hl & Hc' & _).
    - by rewrite Hi.
    - exists w'. by rewrite Hl, Hc', Hc. }
  destruct (onStartLoad (props (image w))) as [h|]; simpl;
    [|apply Hcheck; reflexivity].
  destruct (isVisible (state (image w))); simpl; [|apply Hcheck; reflexivity].
  rewrite (inImageCache_key _ _ _ Hk).
  exact (Hcheck (call_hook (StartLoad h _) w) eq_refl eq_refl).
Qed.

(** Without [critical] the check is skipped, whatever [loading] says and
    however complete the [<img>] already is. *)
Lemma componentDidMount_not_critical w w' :
  is_critical (props (image w)) = false →
  componentDidMount w = Ok w' →
  state (image w') = state (image w) ∧ imageCache w' = imageCache w.
Proof.
  intros Hcrit. unfold componentDidMount.
  destruct (onStartLoad (props (image w))) as [h|]; simpl.
  - destruct (isVisible (state (image w))); simpl.
    + destruct (inImageCache _ _) as [v|]; simpl; [|done].
      rewrite Hcrit. by intros [= <-].
    + rewrite Hcrit. by intros [= <-].
  - rewrite Hcrit. by intros [= <-].
Qed.

Example mount_critical_complete_loaded :
  ∃ w, mount browser imageCache_init registry_init 0 criticalProps 7 complete_img
       = Ok w ∧
       imgLoaded (state (image w)) = VBool true ∧
       imageCache_get (imageCache w) "a.jpg" = VBool true.
Proof. eexists. split; [reflexivity|]. by vm_compute. Qed.

(** C9. Mounted with [loading="eager"] and without [critical], the
    controller is visible from construction and its [<img>] is already
    complete at mount time, yet [componentDidMount] does not run the
    completeness check: [imgLoaded] stays [false] and the cache is not
    marked.  The same mount with [critical] does become loaded. *)
Theorem mount_eager_complete_not_loaded :
  loading_is_eager eagerProps = true ∧
  ∃ w, mount browser imageCache_init registry_init 0 eagerProps 7 complete_img
       = Ok w ∧
       isVisible (state (image w)) = true ∧
       imageRef (image w) = Some complete_img ∧
       imgLoaded (state (image w)) = VBool false ∧
       imageCache w = imageCache_init.
Proof. split; [reflexivity|]. eexists. split; [reflexivity|]. by vm_compute. Qed.

(** ** A deferred load, end to end *)

(** Mounted lazily in a browser with IntersectionObserver, the image waits;
    the observer's report makes it visible and records whether the browser
    had the source at hand; the [load] event makes it loaded, and from then
    on the cache reports the identity as seen. *)
Example deferred_load_scenario :
  ∃ w0 w1 w2,
    mount browser imageCache_init registry_init 0 (fluidProps "a.jpg") 7
      {| complete := false; currentSrc := None |} = Ok w0 ∧
    state (image w0)
      = {| isVisible := false; imgLoaded := VBool false; imgCached := false;
           state_fadeIn := true |} ∧
    subscribed (registry w0) 7 (OnIntersect 0) ∧
    step w0 (Intersect {| complete := false; currentSrc := Some "a.jpg" |}
               [entry_visible 7; entry_visible 7]) = Ok w1 ∧
    state (image w1)
      = {| isVisible := true; imgLoaded := VBool false; imgCached := true;
           state_fadeIn := true |} ∧
    unregistered (registry w1) 7 ∧
    step w1 ImgLoad = Ok w2 ∧
    state (image w2)
      = {| isVisible := true; imgLoaded := VBool true; imgCached := true;
           state_fadeIn := true |} ∧
    inImageCache (imageCache w2) (fluidProps "a.jpg") = Ok (VBool true).
Proof.
  eexists _, _, _.
  split; [reflexivity|]. split; [reflexivity|].
  split; [split; [reflexivity|eexists; split; [reflexivity|set_solver]]|].
  split; [reflexivity|]. split; [reflexivity|].
  split; [split; [reflexivity|intros observed [= <-]; set_solver]|].
  split; [reflexivity|]. split; reflexivity.
Qed.

(** * Further properties *)

(** ** Grouping and legacy props *)

Lemma filter_filter_same {A} (p : A → bool) (l : list A) :
  List.filter p (List.filter p l) = List.filter p l.
Proof.
  induction l as [|a l IH]; simpl; [done|].
  destruct (p a) eqn:E; simpl; by rewrite ?E, IH.
Qed.

Lemma filter_filter_disjoint {A} (p q : A → bool) (l : list A) :
  (∀ a, q a = true → p a = false) →
  List.filter p (List.filter q l) = [].
Proof.
  intros Hpq. induction l as [|a l IH]; simpl; [done|].
  destruct (q a) eqn:E; simpl; [|done]. by rewrite (Hpq _ E).
Qed.

Lemma groupByMedia_twice (l : list Variant) :
  groupByMedia (groupByMedia l) = groupByMedia l.
Proof.
  rewrite !groupByMedia_eq, !List.filter_app, !filter_filter_same.
  rewrite (filter_filter_disjoint has_media (λ v, negb (has_media v))).
  - rewrite (filter_filter_disjoint (λ v, negb (has_media v)) has_media).
    + by rewrite app_nil_r.
    + by intros a ->.
  - intros a. by destruct (has_media a).
Qed.

(** Grouping keeps the number of variants, and grouping an already grouped
    array changes nothing. *)
Theorem groupByMedia_idempotent (imageVariants : list Variant) :
  groupByMedia (groupByMedia imageVariants) = groupByMedia imageVariants ∧
  length (groupByMedia imageVariants) = length imageVariants.
Proof.
  split; [apply groupByMedia_twice|].
  rewrite groupByMedia_eq. apply Permutation_length, filter_split_Permutation.
Qed.

Lemma head_filter_find {A} (p : A → bool) (l : list A) :
  head (List.filter p l) = List.find p l.
Proof.
  induction l as [|a l IH]; simpl; [done|]. by destruct (p a).
Qed.

Lemma find_none_filter {A} (p : A → bool) (l : list A) :
  List.find p l = None →
  List.filter p l = [] ∧ List.filter (λ a, negb (p a)) l = l.
Proof.
  induction l as [|a l IH]; simpl; [done|].
  destruct (p a); simpl; [done|].
  intros H. destruct (IH H) as [-> ->]. done.
Qed.

Lemma head_groupByMedia (l : list Variant) :
  head (groupByMedia l) = preferred l.
Proof.
  rewrite groupByMedia_eq. unfold preferred.
  destruct (List.find has_media l) as [w|] eqn:Hfind.
  - rewrite <- head_filter_find in Hfind.
    by destruct (List.filter has_media l).
  - by destruct (find_none_filter _ _ Hfind) as [-> ->].
Qed.

Lemma convertProps_arrays (p : Props) :
  fluid (convertProps p) = (λ l, Many (groupByMedia l)) <$> supplied_fluid p ∧
  fixed (convertProps p) = (λ l, Many (groupByMedia l)) <$> supplied_fixed p ∧
  loading (convertProps p)
    = (if is_critical p then Some LoadingEager else loading p).
Proof.
  destruct p as [res sz fx fl crit fade dur load istyle pstyle ol oe osl].
  unfold convertProps, supplied_fluid, supplied_fixed, is_critical. simpl.
  destruct res, sz, fx, fl, crit as [[]|]; simpl; done.
Qed.

(** What [convertProps] returns, field by field: the legacy [sizes] and
    [resolutions] take precedence over [fluid] and [fixed] and are removed,
    both arrays are grouped, [critical] forces [loading] to [eager], and
    nothing else changes. *)
Theorem convertProps_fields (p : Props) :
  fluid (convertProps p) = (λ l, Many (groupByMedia l)) <$> supplied_fluid p ∧
  fixed (convertProps p) = (λ l, Many (groupByMedia l)) <$> supplied_fixed p ∧
  sizes (convertProps p) = None ∧
  resolutions (convertProps p) = None ∧
  loading (convertProps p)
    = (if is_critical p then Some LoadingEager else loading p) ∧
  critical (convertProps p) = critical p ∧
  fadeIn (convertProps p) = fadeIn p ∧
  durationFadeIn (convertProps p) = durationFadeIn p ∧
  imgStyle (convertProps p) = imgStyle p ∧
  placeholderStyle (convertProps p) = placeholderStyle p ∧
  onLoad (convertProps p) = onLoad p ∧
  onError (convertProps p) = onError p ∧
  onStartLoad (convertProps p) = onStartLoad p.
Proof.
  destruct p as [res sz fx fl crit fade dur load istyle pstyle ol oe osl].
  unfold convertProps, supplied_fluid, supplied_fixed, is_critical. simpl.
  destruct res, sz, fx, fl, crit as [[]|]; simpl; done.
Qed.

(** Converting already converted props changes nothing: [render], the cache
    lookup and the cache update may each convert on their own. *)
Theorem convertProps_idempotent (p : Props) :
  convertProps (convertProps p) = convertProps p.
Proof.
  destruct p as [res sz fx fl crit fade dur load istyle pstyle ol oe osl].
  unfold convertProps, is_critical. simpl.
  destruct res, sz, fx, fl, crit as [[]|]; simpl;
    rewrite ?groupByMedia_twice; done.
Qed.

Lemma first_of_converted_fluid p :
  first_of (fluid (convertProps p)) = supplied_fluid p ≫= preferred.
Proof.
  destruct (convertProps_arrays p) as (-> & _).
  destruct (supplied_fluid p) as [l|]; simpl; [|done]. apply head_groupByMedia.
Qed.

Lemma first_of_converted_fixed p :
  first_of (fixed (convertProps p)) = supplied_fixed p ≫= preferred.
Proof.
  destruct (convertProps_arrays p) as (_ & -> & _).
  destruct (supplied_fixed p) as [l|]; simpl; [|done]. apply head_groupByMedia.
Qed.

Lemma getImageSrcKey_converted (p : Props) :
  getImageSrcKey (convertProps p)
  = match supplied_fluid p ≫= preferred, supplied_fixed p ≫= preferred with
    | Some v, _ => Ok (src v)
    | None, Some v => Ok (src v)
    | None, None => Throw (TypeError "Cannot read property 'src' of undefined")
    end.
Proof.
  unfold getImageSrcKey.
  rewrite first_of_converted_fluid, first_of_converted_fixed.
  destruct (supplied_fluid p ≫= preferred); [done|].
  by destruct (supplied_fixed p ≫= preferred).
Qed.

Lemma preferred_elem_of (l : list Variant) v : preferred l = Some v → v ∈ l.
Proof.
  unfold preferred. destruct (List.find has_media l) as [w|] eqn:Hfind.
  - intros [= <-]. apply find_some in Hfind as [Hin _]. by apply list_elem_of_In.
  - destruct l as [|a l]; [done|]. intros [= <-]. apply list_elem_of_here.
Qed.

(** The cache key of a set of props: the [src] of the preferred variant of
    the fluid array (the first with a media condition, else the first),
    failing that of the fixed array; with neither, the key computation
    raises.  The key is always the [src] of a supplied variant. *)
Theorem getImageSrcKey_preferred (p : Props) :
  getImageSrcKey (convertProps p)
  = match supplied_fluid p ≫= preferred, supplied_fixed p ≫= preferred with
    | Some v, _ => Ok (src v)
    | None, Some v => Ok (src v)
    | None, None => Throw (TypeError "Cannot read property 'src' of undefined")
    end ∧
  ∀ key, getImageSrcKey (convertProps p) = Ok key →
         ∃ l v, (supplied_fluid p = Some l ∨ supplied_fixed p = Some l) ∧
                v ∈ l ∧ src v = key.
Proof.
  split; [apply getImageSrcKey_converted|].
  intros key. rewrite getImageSrcKey_converted.
  destruct (supplied_fluid p) as [lf|] eqn:Hfl; simpl.
  - destruct (preferred lf) as [v|] eqn:Hv.
    + intros [= <-]. exists lf, v. split; [by left|].
      split; [by apply preferred_elem_of|done].
    + destruct (supplied_fixed p) as [lx|] eqn:Hfx; simpl; [|done].
      destruct (preferred lx) as [v|] eqn:Hx; [|done].
      intros [= <-]. exists lx, v. split; [by right|].
      split; [by apply preferred_elem_of|done].
  - destruct (supplied_fixed p) as [lx|] eqn:Hfx; simpl; [|done].
    destruct (preferred lx) as [v|] eqn:Hx; [|done].
    intros [= <-]. exists lx, v. split; [by right|].
    split; [by apply preferred_elem_of|done].
Qed.

(** ** Cache updates *)

Lemma activateCacheForImage_inv c p c' :
  activateCacheForImage c p = Ok c' →
  ∃ key, getImageSrcKey (convertProps p) = Ok key ∧ c' = imageCache_set c key true.
Proof.
  unfold activateCacheForImage.
  destruct (getImageSrcKey (convertProps p)) as [key|]; simpl; [|done].
  intros [= <-]. by exists key.
Qed.

Lemma inImageCache_inv c p v :
  inImageCache c p = Ok v →
  ∃ key, getImageSrcKey (convertProps p) = Ok key ∧
         v = js_or (imageCache_get c key) (VBool false).
Proof.
  unfold inImageCache.
  destruct (getImageSrcKey (convertProps p)) as [key|]; simpl; [|done].
  intros [= <-]. by exists key.
Qed.

Lemma inImageCache_truthy_iff c keys p key :
  CacheHistory c keys →
  getImageSrcKey (convertProps p) = Ok key →
  ∃ v, inImageCache c p = Ok v ∧
       (truthy v = true ↔ key ∈ keys ∨ inherited key = true).
Proof.
  intros Hc Hk. rewrite (inImageCache_key _ _ _ Hk).
  eexists. split; [done|].
  unfold imageCache_get. rewrite (CacheHistory_own _ _ Hc).
  case_bool_decide as Hd.
  - simpl. split; [|done]. intros _. left. tauto.
  - rewrite truthy_js_or. simpl. rewrite orb_false_r. fold (inherited key).
    split; [by right|]. intros [Hin|Hinh]; [|done].
    destruct (decide (key = "__proto__")) as [->|Hne]; [done|tauto].
Qed.

(** On every cache the program can reach, an identity is reported as seen
    exactly when it was marked before or names a property inherited from
    [Object.prototype]; marked identities other than [__proto__] are
    reported with the value [true]. *)
Theorem inImageCache_reachable c keys p key :
  CacheHistory c keys →
  getImageSrcKey (convertProps p) = Ok key →
  ∃ v, inImageCache c p = Ok v ∧
       (truthy v = true ↔ key ∈ keys ∨ inherited key = true) ∧
       (key ∈ keys → key ≠ "__proto__" → v = VBool true).
Proof.
  intros Hc Hk. rewrite (inImageCache_key _ _ _ Hk).
  eexists. split; [done|].
  unfold imageCache_get. rewrite (CacheHistory_own _ _ Hc).
  case_bool_decide as Hd.
  - split; [|done]. simpl. split; [|done]. intros _. left. tauto.
  - rewrite truthy_js_or. simpl. rewrite orb_false_r. fold (inherited key).
    split.
    + split; [by right|]. intros [Hin|Hinh]; [|done].
      destruct (decide (key = "__proto__")) as [->|Hne]; [done|tauto].
    + intros Hin Hne. tauto.
Qed.

Lemma inImageCache_reachable_witness :
  ∃ v, inImageCache (imageCache_set imageCache_init "a.jpg" true)
         (fluidProps "a.jpg") = Ok v ∧
       (truthy v = true ↔ "a.jpg" ∈ ["a.jpg"] ∨ inherited "a.jpg" = true) ∧
       ("a.jpg" ∈ ["a.jpg"] → "a.jpg" ≠ "__proto__" → v = VBool true).
Proof.
  apply (inImageCache_reachable _ ["a.jpg"] (fluidProps "a.jpg") "a.jpg").
  - apply (history_mark imageCache_init [] (fluidProps "a.jpg") "a.jpg");
      [constructor|reflexivity..].
  - reflexivity.
Defined.

(** Marking is idempotent, and marks commute: the cache depends on which
    identities were marked, not on how often or in which order. *)
Theorem activateCacheForImage_idempotent_commutes c p q c1 c2 :
  activateCacheForImage c p = Ok c1 →
  activateCacheForImage c1 q = Ok c2 →
  activateCacheForImage c1 p = Ok c1 ∧
  ∃ c1', activateCacheForImage c q = Ok c1' ∧
         activateCacheForImage c1' p = Ok c2.
Proof.
  intros (kp & Hkp & ->)%activateCacheForImage_inv
         (kq & Hkq & ->)%activateCacheForImage_inv.
  rewrite !(activateCacheForImage_key _ _ _ Hkp), !(activateCacheForImage_key _ _ _ Hkq).
  split.
  - f_equal. unfold imageCache_set. case_bool_decide; [done|].
    by rewrite insert_insert_eq.
  - exists (imageCache_set c kq true). split; [done|].
    rewrite (activateCacheForImage_key _ _ _ Hkp). f_equal.
    unfold imageCache_set. repeat case_bool_decide; try done.
    destruct (decide (kp = kq)) as [->|Hne]; [done|].
    by apply insert_insert_ne.
Qed.

Lemma activateCacheForImage_idempotent_commutes_witness :
  activateCacheForImage (imageCache_set imageCache_init "a.jpg" true)
    (fluidProps "a.jpg")
  = Ok (imageCache_set imageCache_init "a.jpg" true) ∧
  ∃ c1', activateCacheForImage imageCache_init (fluidProps "b.jpg") = Ok c1' ∧
         activateCacheForImage c1' (fluidProps "a.jpg")
         = Ok (imageCache_set (imageCache_set imageCache_init "a.jpg" true)
                 "b.jpg" true).
Proof.
  apply (activateCacheForImage_idempotent_commutes imageCache_init
           (fluidProps "a.jpg") (fluidProps "b.jpg")); reflexivity.
Defined.

Lemma preferred_None (l : list Variant) : preferred l = None ↔ l = [].
Proof.
  unfold preferred. split; [|by intros ->].
  destruct (List.find has_media l); [done|]. by destruct l.
Qed.

(** The cache lookup and the cache update raise on exactly the same props,
    whatever the cache holds: those that supply no variant at all. *)
Theorem cache_operations_raise_iff c p :
  ((∃ e, inImageCache c p = Throw e) ↔ no_variants p) ∧
  ((∃ e, activateCacheForImage c p = Throw e) ↔ no_variants p).
Proof.
  assert ((∃ e, getImageSrcKey (convertProps p) = Throw e) ↔ no_variants p) as Hk.
  { rewrite getImageSrcKey_converted. unfold no_variants.
    destruct (supplied_fluid p) as [lf|]; simpl;
      [destruct (preferred lf) eqn:Ef|];
      (destruct (supplied_fixed p) as [lx|]; simpl;
        [destruct (preferred lx) eqn:Ex|]);
      rewrite ?preferred_None in *; subst;
      try (split; [intros [e He]; discriminate He|]);
      try (split; [intros _|intros _; by eexists]);
      try (apply eq_None_not_Some in Ef; rewrite preferred_None in Ef);
      try (apply eq_None_not_Some in Ex; rewrite preferred_None in Ex);
      naive_solver. }
  unfold inImageCache, activateCacheForImage.
  destruct (getImageSrcKey (convertProps p)) as [key|e0]; simpl;
    rewrite <- Hk; split; split; intros [e He]; try discriminate He; by eexists.
Qed.

(** ** More on the intersection registry *)

Section RegistryMore.
Context {Cb : Type}.
Implicit Types (r : Registry Cb) (el : Element) (fired : list (Fired Cb)).

(** The shared observer is created at most once: asking again returns the
    same observer, an existing observer keeps its targets, and the listener
    table is never touched. *)
Theorem getIO_idempotent env r :
  getIO env (fst (getIO env r)) = getIO env r ∧
  snd (getIO env r) = io (fst (getIO env r)) ∧
  listeners (fst (getIO env r)) = listeners r ∧
  (∀ observed, io r = Some observed → getIO env r = (r, Some observed)).
Proof.
  unfold getIO. destruct (io r) as [observed|] eqn:Hr.
  - simpl. rewrite Hr. repeat split; try done. by intros ? [= <-].
  - destruct (isBrowser env && truthy (window_IntersectionObserver env)); simpl;
      rewrite ?Hr; done.
Qed.

Lemma io_entry_acc r fired entry :
  io_entry (r, fired) entry
  = (fst (io_entry (r, []) entry), fired ++ snd (io_entry (r, []) entry)).
Proof.
  unfold io_entry. destruct (listeners r !! target entry);
    [destruct (entry_intersects entry)|]; simpl; by rewrite ?app_nil_r.
Qed.

Lemma io_entries_acc entries r fired :
  fold_left io_entry entries (r, fired)
  = (fst (fold_left io_entry entries (r, [])),
     fired ++ snd (fold_left io_entry entries (r, []))).
Proof.
  revert r fired.
  induction entries as [|entry entries IH]; intros r fired; cbn [fold_left].
  - simpl. by rewrite app_nil_r.
  - rewrite io_entry_acc, IH.
    destruct (io_entry (r, []) entry) as [r1 fired1]. simpl.
    rewrite (IH r1 fired1). simpl. by rewrite app_assoc.
Qed.

Lemma io_callback_app r entries1 entries2 :
  io_callback r (entries1 ++ entries2)
  = (fst (io_callback (fst (io_callback r entries1)) entries2),
     snd (io_callback r entries1)
     ++ snd (io_callback (fst (io_callback r entries1)) entries2)).
Proof.
  unfold io_callback. rewrite fold_left_app.
  destruct (fold_left io_entry entries1 (r, [])) as [r1 fired1]. simpl.
  apply io_entries_acc.
Qed.

(** How the browser cuts the entries into batches does not matter: the
    outcome is that of one batch holding all entries in order. *)
Theorem io_reports_concat r (batches : list (list Entry)) :
  io_reports r batches = io_callback r (concat batches).
Proof.
  unfold io_reports.
  assert (∀ fired,
    fold_left
      (λ '(r, calls) entries,
         let '(r', calls') := io_callback r entries in (r', calls ++ calls'))
      batches (r, fired)
    = (fst (io_callback r (concat batches)),
       fired ++ snd (io_callback r (concat batches)))) as H.
  { revert r. induction batches as [|entries batches IH]; intros r fired;
      cbn [fold_left concat].
    - simpl. by rewrite app_nil_r.
    - rewrite io_callback_app.
      destruct (io_callback r entries) as [r1 fired1]. simpl.
      rewrite IH. by rewrite app_assoc. }
  rewrite H. simpl. by destruct (io_callback r (concat batches)).
Qed.
(** Entries for elements that are not registered, and entries that do not
    intersect, leave the registry as it is and run no callback. *)
Theorem io_callback_no_hit r (entries : list Entry) :
  Forall (λ e, listeners r !! target e = None ∨ entry_intersects e = false) entries →
  io_callback r entries = (r, []).
Proof.
  unfold io_callback. induction 1 as [|e entries He _ IH]; cbn [fold_left]; [done|].
  assert (io_entry (r, []) e = (r, [])) as ->; [|done].
  unfold io_entry. destruct He as [->| ->]; [done|].
  by destruct (listeners r !! target e).
Qed.

Lemma delivery_none_stays r r' fired el :
  delivery r r' fired → listeners r !! el = None → listeners r' !! el = None.
Proof.
  intros [_ [Hsub _] _ _ _] Hn.
  destruct (listeners r' !! el) eqn:E; [|done].
  by rewrite (lookup_weaken _ _ _ _ E Hsub) in Hn.
Qed.

Lemma io_entries_hit_removed entries r fired el :
  Exists (λ e, target e = el ∧ entry_intersects e = true) entries →
  listeners (fst (fold_left io_entry entries (r, fired))) !! el = None.
Proof.
  intros Hex. revert r fired.
  induction Hex as [e entries [<- Hint]|e entries _ IH]; intros r fired;
    cbn [fold_left].
  - destruct (io_entry_delivery r fired e) as (r1 & new1 & Hstep & _).
    assert (listeners r1 !! target e = None) as Hr1.
    { revert Hstep. unfold io_entry. rewrite Hint.
      destruct (listeners r !! target e) eqn:E; intros [= <- _]; simpl;
        [apply lookup_delete_eq|done]. }
    rewrite Hstep.
    destruct (io_entries_delivery entries r1 (fired ++ new1)) as (r2 & new2 & -> & Hd).
    simpl. by eapply delivery_none_stays.
  - destruct (io_entry (r, fired) e) as [r1 fired1]. apply IH.
Qed.

Lemma io_callback_hit r el (cb : Cb) (entries : list Entry) :
  listeners r !! el = Some cb →
  Exists (λ e, target e = el ∧ entry_intersects e = true) entries →
  ∃ r' fired,
    io_callback r entries = (r', fired) ∧
    delivery r r' fired ∧
    (∃ f, f ∈ fired ∧ fired_target f = el ∧ fired_cb f = cb) ∧
    unregistered r' el.
Proof.
  intros Hcb Hex.
  destruct (io_callback_delivery r entries) as (r' & fired & Hrun & Hd).
  exists r', fired. split; [done|]. split; [done|].
  pose proof (io_entries_hit_removed entries r [] el Hex) as Hnone.
  unfold io_callback in Hrun. rewrite Hrun in Hnone. simpl in Hnone.
  assert (count_for el fired = 1) as Hcount.
  { pose proof (delivery_count _ _ _ Hd el) as Hc.
    unfold pending in Hc. rewrite Hcb, Hnone in Hc. lia. }
  split.
  - destruct (count_for_pos el fired) as (f & Hf & Ht); [lia|].
    exists f. repeat split; try done.
    pose proof (delivery_cb _ _ _ Hd) as Hcbs. rewrite Forall_forall in Hcbs.
    specialize (Hcbs f Hf). rewrite Ht, Hcb in Hcbs. congruence.
  - eapply delivery_fired_unregistered; [done|lia].
Qed.

(** A registered element's callback does run: as soon as the entries hold
    one for the element that intersects (by flag, or by a positive ratio
    alone), the callback is called, once, and the element ends up
    unregistered. *)
Theorem io_callback_fires r el (cb : Cb) (entries : list Entry) :
  listeners r !! el = Some cb →
  Exists (λ e, target e = el ∧ entry_intersects e = true) entries →
  ∃ r' fired,
    io_callback r entries = (r', fired) ∧
    count_for el fired = 1 ∧
    (∃ f, f ∈ fired ∧ fired_target f = el ∧ fired_cb f = cb) ∧
    unregistered r' el.
Proof.
  intros Hcb Hex.
  destruct (io_callback_hit r el cb entries Hcb Hex)
    as (r' & fired & Hrun & Hd & Hf & Hun).
  exists r', fired. split; [done|]. split; [|by split].
  pose proof (delivery_count _ _ _ Hd el) as Hc.
  destruct Hun as [Hnone _]. unfold pending in Hc. rewrite Hcb, Hnone in Hc. lia.
Qed.

(** An element without a registered callback gets no call, whatever the
    observer reports. *)
Lemma io_callback_unregistered_silent r el (entries : list Entry) :
  listeners r !! el = None →
  count_for el (snd (io_callback r entries)) = 0.
Proof.
  intros Hn.
  destruct (io_callback_delivery r entries) as (r' & fired & -> & Hd). simpl.
  pose proof (delivery_count _ _ _ Hd el) as Hc.
  unfold pending in Hc. rewrite Hn in Hc. lia.
Qed.

(** What subscribing does when an observer is available. *)
Lemma listenToIntersections_available env r el (cb : Cb) :
  observer_available env r = true →
  listenToIntersections env r el cb
  = ({| io := Some (default ∅ (io r) ∪ {[el]});
        listeners := <[el := cb]> (listeners r) |},
     {| unsub_observer := true; unsub_el := el |}).
Proof.
  unfold observer_available, listenToIntersections, getIO.
  destruct (io r) as [observed|] eqn:Hr; simpl.
  - intros _. unfold listeners_set, io_observe. simpl. by rewrite Hr.
  - destruct (isBrowser env && truthy (window_IntersectionObserver env)); [|done].
    intros _. done.
Qed.

Lemma listenToIntersections_unavailable env r el (cb : Cb) :
  observer_available env r = false →
  listenToIntersections env r el cb = (r, {| unsub_observer := false; unsub_el := el |}).
Proof.
  unfold observer_available, listenToIntersections, getIO.
  destruct (io r) as [observed|] eqn:Hr; simpl; [done|].
  by destruct (isBrowser env && truthy (window_IntersectionObserver env)).
Qed.

Lemma observer_available_after env r el (cb : Cb) :
  observer_available env (fst (listenToIntersections env r el cb))
  = observer_available env r.
Proof.
  destruct (observer_available env r) eqn:Hav.
  - by rewrite (listenToIntersections_available _ _ _ _ Hav).
  - by rewrite (listenToIntersections_unavailable _ _ _ _ Hav).
Qed.

(** One entry per element: subscribing an element again replaces its
    callback, as if only the second subscription had been made. *)
Theorem listenToIntersections_again env r el (cb1 cb2 : Cb) :
  listenToIntersections env (fst (listenToIntersections env r el cb1)) el cb2
  = listenToIntersections env r el cb2.
Proof.
  destruct (observer_available env r) eqn:Hav.
  - rewrite (listenToIntersections_available env
               (fst (listenToIntersections env r el cb1)));
      [|by rewrite observer_available_after].
    rewrite !(listenToIntersections_available _ _ _ _ Hav). simpl.
    f_equal. f_equal.
    + f_equal. set_solver.
    + apply insert_insert_eq.
  - by rewrite !(listenToIntersections_unavailable _ _ _ _ Hav).
Qed.

(** Subscriptions of different elements do not interfere: they can be made
    in either order, and each keeps its own callback. *)
Theorem listenToIntersections_commute env r el1 el2 (cb1 cb2 : Cb) :
  el1 ≠ el2 →
  fst (listenToIntersections env (fst (listenToIntersections env r el1 cb1)) el2 cb2)
  = fst (listenToIntersections env (fst (listenToIntersections env r el2 cb2)) el1 cb1) ∧
  (observer_available env r = true →
   listeners
     (fst (listenToIntersections env (fst (listenToIntersections env r el1 cb1)) el2 cb2))
     !! el1 = Some cb1).
Proof.
  intros Hne. destruct (observer_available env r) eqn:Hav.
  - rewrite (listenToIntersections_available env
               (fst (listenToIntersections env r el1 cb1)));
      [|by rewrite observer_available_after].
    rewrite (listenToIntersections_available env
               (fst (listenToIntersections env r el2 cb2)));
      [|by rewrite observer_available_after].
    rewrite !(listenToIntersections_available _ _ _ _ Hav). simpl. split.
    + f_equal; [f_equal; set_solver|by apply insert_insert_ne].
    + intros _. rewrite lookup_insert_ne by done. apply lookup_insert_eq.
  - rewrite !(listenToIntersections_unavailable _ _ _ _ Hav). simpl.
    by rewrite ?(listenToIntersections_unavailable _ _ _ _ Hav).
Qed.

(** Unsubscribing before the element intersects cancels the callback for
    good, and cancels nothing else: every other element keeps its callback
    and stays among the observer's targets. *)
Theorem unsubscribe_cancels env r el (cb : Cb) :
  observer_available env r = true →
  ∃ r1 unsubscribe r2,
    listenToIntersections env r el cb = (r1, unsubscribe) ∧
    run_unsubscribe unsubscribe r1 = Ok r2 ∧
    (∀ entries, count_for el (snd (io_callback r2 entries)) = 0) ∧
    (∀ el', el' ≠ el →
       listeners r2 !! el' = listeners r !! el' ∧
       ∀ observed, io r = Some observed →
         ∃ observed2, io r2 = Some observed2 ∧ (el' ∈ observed2 ↔ el' ∈ observed)).
Proof.
  intros Hav. rewrite (listenToIntersections_available _ _ _ _ Hav).
  eexists _, _, _. split; [done|]. split; [done|]. simpl. split.
  - intros entries. apply io_callback_unregistered_silent. simpl.
    apply lookup_delete_eq.
  - intros el' Hne. split.
    + rewrite lookup_delete_ne by done. by rewrite lookup_insert_ne.
    + intros observed ->. simpl. eexists. split; [done|]. set_solver.
Qed.
End RegistryMore.

Lemma io_callback_no_hit_witness :
  io_callback (fst (listenToIntersections browser registry_init 7 (OnIntersect 0)))
    [ entry_visible 8;
      {| target := 7; isIntersecting := Some false;
         intersectionRatio := (0%Z, 1%positive) |} ]
  = (fst (listenToIntersections browser registry_init 7 (OnIntersect 0)), []).
Proof.
  apply io_callback_no_hit.
  constructor; [left; reflexivity|].
  constructor; [right; reflexivity|].
  constructor.
Defined.

Lemma io_callback_fires_witness :
  ∃ r' fired,
    io_callback (fst (listenToIntersections browser registry_init 7 (OnIntersect 0)))
      [entry_visible 8; entry_ratio_only 7; entry_visible 7] = (r', fired) ∧
    count_for 7 fired = 1 ∧
    (∃ f, f ∈ fired ∧ fired_target f = 7 ∧ fired_cb f = OnIntersect 0) ∧
    unregistered r' 7.
Proof.
  apply (io_callback_fires _ 7 (OnIntersect 0)).
  - reflexivity.
  - apply Exists_cons_tl, Exists_cons_hd. split; reflexivity.
Defined.

Lemma listenToIntersections_commute_witness :
  fst (listenToIntersections browser
         (fst (listenToIntersections browser registry_init 7 (OnIntersect 0)))
         8 (OnIntersect 1))
  = fst (listenToIntersections browser
           (fst (listenToIntersections browser registry_init 8 (OnIntersect 1)))
           7 (OnIntersect 0)) ∧
  (observer_available browser (registry_init (Cb := Callback)) = true →
   listeners
     (fst (listenToIntersections browser
             (fst (listenToIntersections browser registry_init 7 (OnIntersect 0)))
             8 (OnIntersect 1)))
     !! 7 = Some (OnIntersect 0)).
Proof.
  apply (listenToIntersections_commute browser registry_init 7 8). lia.
Defined.

Lemma unsubscribe_cancels_witness :
  ∃ r1 unsubscribe r2,
    listenToIntersections browser registry_init 7 (OnIntersect 0) = (r1, unsubscribe) ∧
    run_unsubscribe unsubscribe r1 = Ok r2 ∧
    (∀ entries, count_for 7 (snd (io_callback r2 entries)) = 0) ∧
    (∀ el', el' ≠ 7 →
       listeners r2 !! el' = listeners (registry_init (Cb := Callback)) !! el' ∧
       ∀ observed, io (registry_init (Cb := Callback)) = Some observed →
         ∃ observed2, io r2 = Some observed2 ∧ (el' ∈ observed2 ↔ el' ∈ observed)).
Proof.
  apply (unsubscribe_cancels browser registry_init 7 (OnIntersect 0)).
  reflexivity.
Defined.

(** ** More on construction *)

Lemma constructor_inv env c this p i :
  constructor env c this p = Ok i →
  ∃ seen,
    (if isBrowser env then inImageCache c p else Ok (VBool false)) = Ok seen ∧
    self i = this ∧ props i = p ∧ seenBefore i = seen ∧
    addNoScript i = negb (is_critical p && negb (fadeIn p)) ∧
    truthy (useIOSupport i)
      = negb (hasNativeLazyLoadSupport env) && truthy (hasIOSupport env)
        && negb (is_critical p) && negb (truthy seen) ∧
    isVisible (state i)
      = is_critical p || loading_is_eager p
        || (isBrowser env
            && (hasNativeLazyLoadSupport env || negb (truthy (useIOSupport i)))) ∧
    imgLoaded (state i) = VBool false ∧
    imgCached (state i) = false ∧
    state_fadeIn (state i) = negb (truthy seen) && fadeIn p ∧
    imageRef i = None ∧ cleanUpListeners i = None.
Proof.
  unfold constructor.
  destruct (if isBrowser env then inImageCache c p else Ok (VBool false))
    as [seen|] eqn:Hseen; simpl; [|done].
  intros [= <-]. exists seen. simpl.
  repeat split; try done.
  by rewrite !truthy_js_and.
Qed.


(** The deferral decision.  A freshly constructed controller is hidden
    exactly when the load is neither [critical] nor [eager] and either there
    is no [window] (server-side rendering) or the browser lacks native lazy
    loading, offers IntersectionObserver and the cache does not report the
    image as seen.  It always starts not loaded and not cached, and it fades
    in exactly when [fadeIn] is set and the image was not seen. *)
Theorem constructor_hidden_iff env c this p i :
  constructor env c this p = Ok i →
  (isVisible (state i) = false ↔
     is_critical p = false ∧ loading_is_eager p = false ∧
     (isBrowser env = false ∨
      (hasNativeLazyLoadSupport env = false ∧
       truthy (hasIOSupport env) = true ∧
       truthy (seenBefore i) = false))) ∧
  imgLoaded (state i) = VBool false ∧
  imgCached (state i) = false ∧
  state_fadeIn (state i) = negb (truthy (seenBefore i)) && fadeIn p.
Proof.
  intros (seen & _ & _ & _ & -> & _ & Huse & Hvis & Hl & Hc & Hf & _)%constructor_inv.
  rewrite Hvis, Huse, Hl, Hc, Hf. split; [|done].
  destruct (is_critical p), (loading_is_eager p), (isBrowser env),
    (hasNativeLazyLoadSupport env), (truthy (hasIOSupport env)), (truthy seen);
    simpl; split; try done; try tauto;
    try (intros (? & ? & [?|(? & ? & ?)]); done).
Qed.

Lemma constructor_hidden_iff_witness :
  ∃ i, constructor browser imageCache_init 0 (fluidProps "a.jpg") = Ok i ∧
       isVisible (state i) = false ∧
       state_fadeIn (state i)
       = negb (truthy (seenBefore i)) && fadeIn (fluidProps "a.jpg").
Proof.
  eexists. split; [reflexivity|].
  destruct (constructor_hidden_iff browser imageCache_init 0 (fluidProps "a.jpg") _
              eq_refl) as (Hvis & _ & _ & Hfade).
  split; [|exact Hfade].
  apply Hvis. repeat split; try reflexivity. right. repeat split; reflexivity.
Defined.

(** Server-side rendering: without [window] the constructor never raises,
    not even for props without variants, ignores the cache, and shows the
    image only for [critical] or [eager] loads. *)
Theorem constructor_server env c this p :
  isBrowser env = false →
  ∃ i, constructor env c this p = Ok i ∧
       seenBefore i = VBool false ∧
       isVisible (state i) = is_critical p || loading_is_eager p ∧
       state_fadeIn (state i) = fadeIn p ∧
       truthy (useIOSupport i) = false.
Proof.
  intros Hb. unfold constructor. rewrite Hb. simpl.
  eexists. split; [done|]. simpl. repeat split.
  - by rewrite orb_false_r.
  - rewrite !truthy_js_and. unfold hasIOSupport. rewrite Hb. simpl.
    by rewrite andb_false_r.
Qed.

Lemma constructor_server_witness :
  ∃ i, constructor server (imageCache_set imageCache_init "a.jpg" true) 0
         defaultProps = Ok i ∧
       seenBefore i = VBool false ∧
       isVisible (state i) = is_critical defaultProps || loading_is_eager defaultProps ∧
       state_fadeIn (state i) = fadeIn defaultProps ∧
       truthy (useIOSupport i) = false.
Proof. apply constructor_server. reflexivity. Defined.

(** Missing capabilities degrade to immediate loading: in a browser with
    native lazy loading, or without IntersectionObserver, the controller is
    visible from construction and [handleRef] subscribes nothing. *)
Theorem constructor_without_observer env c this p i :
  isBrowser env = true →
  hasNativeLazyLoadSupport env = true ∨ truthy (hasIOSupport env) = false →
  constructor env c this p = Ok i →
  isVisible (state i) = true ∧
  ∀ r cs ref, handleRef env ref (world_of c r cs i) = world_of c r cs i.
Proof.
  intros Hb Hcap (seen & _ & _ & _ & _ & _ & Huse & Hvis & _)%constructor_inv.
  assert (truthy (useIOSupport i) = false) as Hoff.
  { rewrite Huse. destruct Hcap as [-> | ->]; [done|]. by rewrite andb_false_r. }
  split.
  - rewrite Hvis, Hb, Hoff. simpl. by rewrite !orb_true_r.
  - intros r cs [el|]; [|done]. unfold handleRef. simpl. by rewrite Hoff.
Qed.

Lemma constructor_without_observer_witness :
  ∃ i,
    constructor {| window := Some {| IntersectionObserver := false |};
                   HTMLImageElement_loading := false |}
      imageCache_init 0 (fluidProps "a.jpg") = Ok i ∧
    isVisible (state i) = true.
Proof.
  eexists. split; [reflexivity|].
  eapply (constructor_without_observer
            {| window := Some {| IntersectionObserver := false |};
               HTMLImageElement_loading := false |}
            imageCache_init 0 (fluidProps "a.jpg")).
  - reflexivity.
  - right. reflexivity.
  - reflexivity.
Defined.

(** ** The component's life after mounting *)

Lemma later_refl w : later w w.
Proof. split; try done. intros q v Hq Hv. by exists v. Qed.

Lemma later_trans w1 w2 w3 : later w1 w2 → later w2 w3 → later w1 w3.
Proof.
  intros [] []. split; try congruence; try tauto.
  - intros q v Hq Hv.
    destruct (later_cache0 q v Hq Hv) as (v' & Hq' & Hv'). eauto.
  - by etrans.
Qed.

Lemma count_StartLoad_app cs cs' :
  count_StartLoad (cs ++ cs') = count_StartLoad cs + count_StartLoad cs'.
Proof. unfold count_StartLoad. by rewrite List.filter_app, length_app. Qed.

Lemma CacheHistory_later_cache c keys p c' q v :
  CacheHistory c keys →
  activateCacheForImage c p = Ok c' →
  inImageCache c q = Ok v → truthy v = true →
  ∃ v', inImageCache c' q = Ok v' ∧ truthy v' = true.
Proof.
  intros Hc Hact Hq Hv.
  destruct (activateCacheForImage_inv _ _ _ Hact) as (kp & Hkp & _).
  destruct (inImageCache_inv _ _ _ Hq) as (kq & Hkq & _).
  pose proof (history_mark _ _ _ _ _ Hc Hkp Hact) as Hc'.
  destruct (inImageCache_truthy_iff _ _ _ _ Hc Hkq) as (v0 & Hq0 & Hiff).
  destruct (inImageCache_truthy_iff _ _ _ _ Hc' Hkq) as (v' & Hq' & Hiff').
  exists v'. split; [done|].
  assert (v0 = v) as -> by congruence.
  apply Hiff'. apply Hiff in Hv as [Hin|Hinh]; [left; by apply list_elem_of_further|by right].
Qed.

(** What [handleImageLoaded] does to the world. *)
Lemma handleImageLoaded_inv w w' :
  handleImageLoaded w = Ok w' →
  activateCacheForImage (imageCache w) (props (image w)) = Ok (imageCache w') ∧
  registry w' = registry w ∧
  self (image w') = self (image w) ∧
  props (image w') = props (image w) ∧
  seenBefore (image w') = seenBefore (image w) ∧
  useIOSupport (image w') = useIOSupport (image w) ∧
  cleanUpListeners (image w') = cleanUpListeners (image w) ∧
  imageRef (image w') = imageRef (image w) ∧
  isVisible (state (image w')) = isVisible (state (image w)) ∧
  imgLoaded (state (image w')) = VBool true ∧
  imgCached (state (image w')) = imgCached (state (image w)) ∧
  state_fadeIn (state (image w')) = state_fadeIn (state (image w)) ∧
  calls w' = calls w ++ match onLoad (props (image w)) with
                        | Some h => [Load h]
                        | None => []
                        end.
Proof.
  unfold handleImageLoaded.
  destruct (activateCacheForImage (imageCache w) (props (image w))) as [c|];
    simpl; [|done].
  destruct (onLoad (props (image w))); intros [= <-]; simpl;
    by rewrite ?app_nil_r.
Qed.

(** What the intersection callback does to the world. *)
Lemma onIntersect_inv dom_img w w' :
  onIntersect dom_img w = Ok w' →
  ∃ v,
    inImageCache (imageCache w) (props (image w)) = Ok v ∧
    imageCache w' = imageCache w ∧
    registry w' = registry w ∧
    self (image w') = self (image w) ∧
    props (image w') = props (image w) ∧
    seenBefore (image w') = seenBefore (image w) ∧
    useIOSupport (image w') = useIOSupport (image w) ∧
    cleanUpListeners (image w') = cleanUpListeners (image w) ∧
    imageRef (image w') = Some dom_img ∧
    isVisible (state (image w')) = true ∧
    imgLoaded (state (image w')) = v ∧
    imgCached (state (image w')) = bool_decide (is_Some (if_truthy (currentSrc dom_img))) ∧
    state_fadeIn (state (image w')) = state_fadeIn (state (image w)) ∧
    calls w' = calls w ++ match onStartLoad (props (image w)) with
                          | Some h =>
                              if isVisible (state (image w)) then []
                              else [StartLoad h v]
                          | None => []
                          end.
Proof.
  unfold onIntersect.
  destruct (inImageCache (imageCache w) (props (image w))) as [v|]; simpl; [|done].
  set (w1 := match onStartLoad (props (image w)) with
             | Some h => if negb (isVisible (state (image w)))
                         then call_hook (StartLoad h v) w else w
             | None => w
             end).
  assert (imageCache w1 = imageCache w ∧ registry w1 = registry w ∧
          image w1 = image w ∧
          calls w1 = calls w ++ match onStartLoad (props (image w)) with
                                | Some h => if isVisible (state (image w)) then []
                                            else [StartLoad h v]
                                | None => []
                                end) as (Hc1 & Hr1 & Hi1 & Hcalls1).
  { subst w1. destruct (onStartLoad (props (image w))); [|by rewrite app_nil_r].
    destruct (isVisible (state (image w))); simpl; by rewrite ?app_nil_r. }
  clearbody w1.
  destruct (render _) as [rendered|]; simpl; [|done].
  destruct (attach_imageRef dom_img rendered) as [img|] eqn:Hatt; [|done].
  assert (img = dom_img) as ->.
  { unfold attach_imageRef in Hatt. destruct rendered as [rd|]; [|done].
    destruct (picture rd); by inversion Hatt. }
  intros [= <-]. exists v. simpl. rewrite Hc1, Hr1, Hi1, Hcalls1. done.
Qed.

Lemma handleImageLoaded_consistent w w' :
  consistent w →
  isVisible (state (image w)) = true →
  handleImageLoaded w = Ok w' →
  consistent w' ∧ later w w'.
Proof.
  intros [[keys Hc] Hhid Hload Hclean Hstart] Hvis Hrun.
  destruct (handleImageLoaded_inv _ _ Hrun)
    as (Hact & Hr & Hself & Hp & Hseen & Huse & Hcl & Href & Hv & Hl & Hcd & Hf & Hcalls).
  destruct (activateCacheForImage_inv _ _ _ Hact) as (key & Hkey & _).
  pose proof (history_mark _ _ _ _ _ Hc Hkey Hact) as Hc'.
  split; [split|split; [congruence..| | | |]].
  - by eexists.
  - rewrite Hv, Hvis. done.
  - intros _. rewrite Hp.
    eapply CacheHistory_marked_truthy; [done..|apply list_elem_of_here].
  - rewrite Hcl. apply Hclean.
  - rewrite Hcalls, count_StartLoad_app, Hstart, Hv, Hp.
    destruct (onLoad (props (image w))); cbn; lia.
  - congruence.
  - by rewrite Hl.
  - intros q v Hq Htv.
    exact (CacheHistory_later_cache _ _ _ _ _ _ Hc Hact Hq Htv).
  - rewrite Hcalls. by apply prefix_app_r.
Qed.

Lemma onIntersect_consistent dom_img w w' :
  consistent w →
  onIntersect dom_img w = Ok w' →
  consistent w' ∧ later w w'.
Proof.
  intros [[keys Hc] Hhid Hload Hclean Hstart] Hrun.
  destruct (onIntersect_inv _ _ _ Hrun)
    as (v & Hin & Hcache & Hr & Hself & Hp & Hseen & Huse & Hcl & Href & Hv & Hl
        & Hcd & Hf & Hcalls).
  split; [split|split; [congruence..| | | |]].
  - rewrite Hcache. by eexists.
  - by rewrite Hv.
  - rewrite Hl, Hcache, Hp. intros Htv. by exists v.
  - rewrite Hcl. apply Hclean.
  - rewrite Hcalls, count_StartLoad_app, Hstart, Hv, Hp.
    destruct (onStartLoad (props (image w))) as [h|]; simpl.
    + destruct (isVisible (state (image w))); cbn;
        rewrite ?bool_decide_eq_true_2 by (by eexists); cbn; lia.
    + rewrite andb_false_r. cbn. lia.
  - congruence.
  - rewrite Hl. intros Htv. destruct (Hload Htv) as (v0 & Hin0 & Htv0). congruence.
  - rewrite Hcache. intros q v0 Hq Htv. by exists v0.
  - rewrite Hcalls. by apply prefix_app_r.
Qed.

Lemma img_load_consistent w w' :
  consistent w → img_load w = Ok w' → consistent w' ∧ later w w'.
Proof.
  intros Hw. unfold img_load.
  destruct (rendered_img w) as [img|] eqn:Himg.
  - destruct (rendered_img_handlers _ _ Himg) as (Hvis & -> & _). simpl.
    by apply handleImageLoaded_consistent.
  - intros [= <-]. split; [done|apply later_refl].
Qed.

Lemma img_error_consistent event w :
  consistent w → consistent (img_error event w) ∧ later w (img_error event w).
Proof.
  intros [Hc Hhid Hload Hclean Hstart].
  destruct (img_error_spec event w) as (Hi & Hcache & Hr & Hcalls).
  split; [split|split; [by rewrite Hi..| | | |]]; rewrite ?Hi, ?Hcache; try done.
  - rewrite Hcalls, count_StartLoad_app, Hstart.
    unfold forwarded. destruct (rendered_img w); [|cbn; lia].
    destruct (onError (props (image w))); cbn; lia.
  - intros q v Hq Htv. by exists v.
  - rewrite Hcalls. by apply prefix_app_r.
Qed.

Lemma later_same w w' :
  image w' = image w → imageCache w' = imageCache w → calls w' = calls w →
  later w w'.
Proof.
  intros Hi Hc Hcalls. split; rewrite ?Hi, ?Hc, ?Hcalls; try done.
  intros q v Hq Hv. by exists v.
Qed.

Lemma set_registry_consistent r w :
  consistent w → consistent (set_registry r w) ∧ later w (set_registry r w).
Proof.
  intros [Hc Hhid Hload Hclean Hstart]. split; [by split|by apply later_same].
Qed.

Lemma componentWillUnmount_consistent w :
  consistent w →
  ∃ w', componentWillUnmount w = Ok w' ∧ consistent w' ∧ later w w' ∧
        ∀ u, cleanUpListeners (image w) = Some u →
             unregistered (registry w') (unsub_el u).
Proof.
  intros Hw. unfold componentWillUnmount.
  destruct (cleanUpListeners (image w)) as [[obs el]|] eqn:Hu.
  - pose proof (cleanup_safe _ Hw _ Hu) as Hobs. simpl in Hobs. subst obs.
    unfold run_unsubscribe. simpl.
    eexists. split; [done|].
    destruct (set_registry_consistent
                (listeners_delete (io_unobserve (registry w) el) el) w Hw) as [H1 H2].
    split; [exact H1|]. split; [exact H2|].
    intros u [= <-]. split; simpl.
    + apply lookup_delete_eq.
    + intros observed.
      destruct (io (registry w)); simpl; [|done]. intros [= <-]. set_solver.
  - exists w. split; [done|]. split; [done|]. split; [apply later_refl|done].
Qed.

Lemma run_callbacks_consistent dom_img fired w w' :
  consistent w →
  fold_left (run_callback dom_img) fired (Ok w) = Ok w' →
  consistent w' ∧ later w w'.
Proof.
  revert w. induction fired as [|f fired IH]; intros w Hw; cbn [fold_left].
  - intros [= <-]. split; [done|apply later_refl].
  - unfold run_callback at 2. simpl.
    destruct (fired_cb f) as [instance].
    destruct (bool_decide (instance = self (image w))).
    + destruct (onIntersect dom_img w) as [w1|e] eqn:Hon.
      * intros Hrest.
        destruct (onIntersect_consistent _ _ _ Hw Hon) as [Hw1 Hl1].
        destruct (IH _ Hw1 Hrest) as [Hw' Hl']. split; [done|].
        by eapply later_trans.
      * intros Hrest. exfalso. revert Hrest. clear.
        induction fired as [|g fired IHf]; simpl; [done|exact IHf].
    + by apply IH.
Qed.

Lemma step_consistent w e w' :
  consistent w → step w e = Ok w' → consistent w' ∧ later w w'.
Proof.
  intros Hw. destruct e as [dom_img entries| |event|]; simpl.
  - unfold intersect.
    destruct (io_callback (registry w) entries) as [r fired].
    destruct (set_registry_consistent r w Hw) as [H1 H2].
    intros Hrun. destruct (run_callbacks_consistent _ _ _ _ H1 Hrun) as [H3 H4].
    split; [done|]. by eapply later_trans.
  - by apply img_load_consistent.
  - intros [= <-]. by apply img_error_consistent.
  - destruct (componentWillUnmount_consistent w Hw) as (w1 & -> & H1 & H2 & _).
    by intros [= <-].
Qed.

Lemma run_consistent es w w' :
  consistent w → run w es = Ok w' → consistent w' ∧ later w w'.
Proof.
  revert w. induction es as [|e es IH]; intros w Hw.
  - intros [= <-]. split; [done|apply later_refl].
  - rewrite run_cons. destruct (step w e) as [w1|] eqn:Hstep; simpl; [|done].
    intros Hrun. destruct (step_consistent _ _ _ Hw Hstep) as [Hw1 Hl1].
    destruct (IH _ Hw1 Hrun) as [Hw' Hl']. split; [done|].
    by eapply later_trans.
Qed.

Lemma handleRef_inv env ref w :
  imageCache (handleRef env ref w) = imageCache w ∧
  calls (handleRef env ref w) = calls w ∧
  self (image (handleRef env ref w)) = self (image w) ∧
  props (image (handleRef env ref w)) = props (image w) ∧
  state (image (handleRef env ref w)) = state (image w) ∧
  imageRef (image (handleRef env ref w)) = imageRef (image w) ∧
  ∀ u, cleanUpListeners (image (handleRef env ref w)) = Some u →
       cleanUpListeners (image w) = Some u ∨
       (truthy (useIOSupport (image w)) = true ∧
        ref = Some (unsub_el u) ∧
        unsub_observer u = observer_available env (registry w)).
Proof.
  unfold handleRef. destruct ref as [el|]; [|by repeat split; auto].
  destruct (truthy (useIOSupport (image w))) eqn:Huse; [|by repeat split; auto].
  destruct (observer_available env (registry w)) eqn:Hav.
  - rewrite (listenToIntersections_available _ _ _ _ Hav). simpl.
    repeat split; try done. intros u [= <-]. by right.
  - rewrite (listenToIntersections_unavailable _ _ _ _ Hav). simpl.
    repeat split; try done. intros u [= <-]. by right.
Qed.

Lemma componentDidMount_establishes w w' :
  (∃ keys, CacheHistory (imageCache w) keys) →
  imgLoaded (state (image w)) = VBool false →
  imgCached (state (image w)) = false →
  (∀ u, cleanUpListeners (image w) = Some u → unsub_observer u = true) →
  calls w = [] →
  (is_critical (props (image w)) = true → isVisible (state (image w)) = true) →
  componentDidMount w = Ok w' →
  consistent w'.
Proof.
  intros Hc Hl Hcd Hclean Hcalls Hcrit. unfold componentDidMount.
  assert (∀ w1, image w1 = image w → imageCache w1 = imageCache w →
                count_StartLoad (calls w1)
                = (if isVisible (state (image w))
                      && bool_decide (is_Some (onStartLoad (props (image w))))
                   then 1 else 0) →
                consistent w1) as Hpre.
  { intros w1 Hi Hcache Hcount. split; rewrite ?Hi, ?Hcache; try done.
    rewrite Hl. done. }
  assert (∀ w1, consistent w1 → image w1 = image w →
      (if is_critical (props (image w1)) then
         match imageRef (image w1) with
         | Some img => if complete img then handleImageLoaded w1 else Ok w1
         | None => Ok w1
         end
       else Ok w1) = Ok w' → consistent w') as Hcheck.
  { intros w1 Hw1 Hi. rewrite Hi.
    destruct (is_critical (props (image w))) eqn:Ecrit; [|by intros [= <-]].
    destruct (imageRef (image w)) as [img|]; [|by intros [= <-]].
    destruct (complete img); [|by intros [= <-]].
    intros Hrun. eapply handleImageLoaded_consistent; [done| |done].
    rewrite Hi. by apply Hcrit. }
  destruct (onStartLoad (props (image w))) as [h|] eqn:Hhook; simpl.
  - destruct (isVisible (state (image w))) eqn:Hvis; simpl.
    + destruct (inImageCache (imageCache w) (props (image w))) as [v|]; simpl;
        [|done].
      apply (Hcheck (call_hook (StartLoad h v) w)); [|done].
      apply Hpre; try done.
      simpl. by rewrite Hcalls.
    + apply (Hcheck w); [|done]. apply Hpre; try done. by rewrite Hcalls.
  - apply (Hcheck w); [|done]. apply Hpre; try done.
    rewrite Hcalls, andb_false_r. done.
Qed.

Lemma mount_inv env c r this p dom_wrapper dom_img w :
  mount env c r this p dom_wrapper dom_img = Ok w →
  ∃ i rendered,
    constructor env c this p = Ok i ∧
    render i = Ok rendered ∧
    componentDidMount
      (match rendered with
       | Some _ =>
           handleRef env (Some dom_wrapper)
             (set_imageRef (attach_imageRef dom_img rendered) (world_of c r [] i))
       | None => set_imageRef (attach_imageRef dom_img rendered) (world_of c r [] i)
       end) = Ok w.
Proof.
  unfold mount.
  destruct (constructor env c this p) as [i|]; [|done].
  unfold mbind, result_bind. cbv beta iota.
  destruct (render i) as [rendered|] eqn:Hr; [|done].
  intros H. by exists i, rendered.
Qed.

Lemma mount_consistent env c keys r this p dom_wrapper dom_img w :
  CacheHistory c keys →
  mount env c r this p dom_wrapper dom_img = Ok w →
  consistent w ∧ props (image w) = p ∧ self (image w) = this.
Proof.
  intros Hc (i & rendered & Hi & _ & Hmount)%mount_inv. revert Hmount.
  destruct (constructor_inv _ _ _ _ _ Hi)
    as (seen & _ & Hself & Hp & _ & _ & Huse & Hvis & Hl & Hcd & _ & _ & Hcl).
  set (w1 := set_imageRef _ _).
  set (w2 := match rendered with
             | Some _ => handleRef env (Some dom_wrapper) w1
             | None => w1
             end).
  assert (imageCache w2 = c ∧ calls w2 = [] ∧ self (image w2) = this ∧
          props (image w2) = p ∧ state (image w2) = state i ∧
          ∀ u, cleanUpListeners (image w2) = Some u → unsub_observer u = true)
    as (Hc2 & Hcalls2 & Hself2 & Hp2 & Hs2 & Hcl2).
  { subst w2. destruct rendered as [rd|].
    - destruct (handleRef_inv env (Some dom_wrapper) w1)
        as (-> & -> & -> & -> & -> & _ & Hu).
      repeat split; try done. intros u Hu'.
      destruct (Hu u Hu') as [Hold|(Huse' & _ & ->)].
      + subst w1. simpl in Hold. congruence.
      + apply hasIOSupport_observer_available.
        subst w1. simpl in Huse'. rewrite Huse in Huse'.
        by destruct (hasNativeLazyLoadSupport env), (truthy (hasIOSupport env)).
    - subst w1. simpl. repeat split; try done. intros u. by rewrite Hcl. }
  clearbody w2. intros Hmount.
  assert (consistent w) as Hw.
  { eapply componentDidMount_establishes; [| | | | | |exact Hmount];
      rewrite ?Hc2, ?Hs2, ?Hp2; try done.
    - by eexists.
    - intros Hcrit. by rewrite Hvis, Hcrit. }
  split; [done|].
  revert Hmount. clear -Hp2 Hself2. unfold componentDidMount.
  assert (∀ w1, props (image w1) = p → self (image w1) = this →
      (if is_critical (props (image w1)) then
         match imageRef (image w1) with
         | Some img => if complete img then handleImageLoaded w1 else Ok w1
         | None => Ok w1
         end
       else Ok w1) = Ok w → props (image w) = p ∧ self (image w) = this) as Hcheck.
  { intros w1 Hp1 Hs1.
    destruct (is_critical (props (image w1))); [|by intros [= <-]].
    destruct (imageRef (image w1)) as [img|]; [|by intros [= <-]].
    destruct (complete img); [|by intros [= <-]].
    intros (_ & _ & Hs & Hp & _)%handleImageLoaded_inv. split; congruence. }
  destruct (onStartLoad (props (image w2))) as [h|]; simpl; [|by apply (Hcheck w2)].
  destruct (isVisible (state (image w2))); simpl; [|by apply (Hcheck w2)].
  destruct (inImageCache (imageCache w2) (props (image w2))) as [v|]; simpl; [|done].
  by apply (Hcheck (call_hook (StartLoad h v) w2)).
Qed.

Lemma rendered_img_hidden w :
  isVisible (state (image w)) = false → rendered_img w = None.
Proof.
  intros Hvis. destruct (rendered_img w) as [img|] eqn:Himg; [|done].
  destruct (rendered_img_handlers _ _ Himg) as (Hv & _). congruence.
Qed.

(** After mounting, whatever events follow: the props and the [fadeIn]
    flag never change, an image that became visible stays visible, an image
    that became loaded stays loaded, and hook calls are only ever added. *)
Theorem life_never_regresses env c keys r this p dom_wrapper dom_img
    w0 es1 w1 es2 w2 :
  CacheHistory c keys →
  mount env c r this p dom_wrapper dom_img = Ok w0 →
  run w0 es1 = Ok w1 →
  run w1 es2 = Ok w2 →
  props (image w2) = p ∧
  state_fadeIn (state (image w2)) = state_fadeIn (state (image w0)) ∧
  (isVisible (state (image w1)) = true → isVisible (state (image w2)) = true) ∧
  (truthy (imgLoaded (state (image w1))) = true →
   truthy (imgLoaded (state (image w2))) = true) ∧
  calls w1 `prefix_of` calls w2.
Proof.
  intros Hc Hmount Hrun1 Hrun2.
  destruct (mount_consistent _ _ _ _ _ _ _ _ _ Hc Hmount) as (Hw0 & Hp0 & _).
  destruct (run_consistent _ _ _ Hw0 Hrun1) as [Hw1 Hl1].
  destruct (run_consistent _ _ _ Hw1 Hrun2) as [Hw2 Hl2].
  destruct Hl1, Hl2. repeat split; try done; congruence.
Qed.

(** While the image is hidden it is neither loaded nor cached, and the
    output holds no [<img>]: nothing is fetched before visibility. *)
Theorem life_hidden_unloaded env c keys r this p dom_wrapper dom_img w0 es w :
  CacheHistory c keys →
  mount env c r this p dom_wrapper dom_img = Ok w0 →
  run w0 es = Ok w →
  isVisible (state (image w)) = false →
  imgLoaded (state (image w)) = VBool false ∧
  imgCached (state (image w)) = false ∧
  rendered_img w = None.
Proof.
  intros Hc Hmount Hrun Hvis.
  destruct (mount_consistent _ _ _ _ _ _ _ _ _ Hc Hmount) as (Hw0 & _).
  destruct (run_consistent _ _ _ Hw0 Hrun) as [Hw _].
  destruct (hidden_unloaded _ Hw Hvis). by rewrite rendered_img_hidden.
Qed.

(** [onStartLoad] is called exactly once, when the image becomes visible
    (at mount, or at the first intersection), and not at all before, nor
    when the hook is absent. *)
Theorem life_startLoad_once env c keys r this p dom_wrapper dom_img w0 es w :
  CacheHistory c keys →
  mount env c r this p dom_wrapper dom_img = Ok w0 →
  run w0 es = Ok w →
  count_StartLoad (calls w)
  = if isVisible (state (image w)) && bool_decide (is_Some (onStartLoad p))
    then 1 else 0.
Proof.
  intros Hc Hmount Hrun.
  destruct (mount_consistent _ _ _ _ _ _ _ _ _ Hc Hmount) as (Hw0 & Hp0 & _).
  destruct (run_consistent _ _ _ Hw0 Hrun) as [Hw Hl].
  rewrite (startLoad_once _ Hw), (later_props _ _ Hl), Hp0. done.
Qed.

(** Unmounting never raises, and when the component had subscribed an
    element, that element is unregistered afterwards: no later report of
    the observer calls back into the unmounted component. *)
Theorem life_unmount_unsubscribes env c keys r this p dom_wrapper dom_img w0 es w :
  CacheHistory c keys →
  mount env c r this p dom_wrapper dom_img = Ok w0 →
  run w0 es = Ok w →
  ∃ w', step w Unmount = Ok w' ∧
        state (image w') = state (image w) ∧
        imageCache w' = imageCache w ∧
        ∀ u, cleanUpListeners (image w) = Some u →
             unregistered (registry w') (unsub_el u) ∧
             ∀ entries,
               count_for (unsub_el u) (snd (io_callback (registry w') entries)) = 0.
Proof.
  intros Hc Hmount Hrun.
  destruct (mount_consistent _ _ _ _ _ _ _ _ _ Hc Hmount) as (Hw0 & _).
  destruct (run_consistent _ _ _ Hw0 Hrun) as [Hw _].
  destruct (componentWillUnmount_consistent w Hw) as (w' & Hun & _ & _ & Hreg).
  exists w'. split; [done|].
  assert (state (image w') = state (image w) ∧ imageCache w' = imageCache w)
    as [-> ->].
  { revert Hun. unfold componentWillUnmount.
    destruct (cleanUpListeners (image w)) as [u|]; [|by intros [= <-]].
    destruct (run_unsubscribe u (registry w)); simpl; [|done]. by intros [= <-]. }
  repeat split; try done.
  - by apply Hreg.
  - by apply Hreg.
  - intros entries. apply io_callback_unregistered_silent. by apply Hreg.
Qed.

Lemma life_never_regresses_witness :
  ∃ w0 w1 w2,
    mount browser imageCache_init registry_init 0 hookedProps 7 loading_img = Ok w0 ∧
    run w0 [Intersect loading_img [entry_visible 7]] = Ok w1 ∧
    run w1 [ImgLoad; Intersect loading_img [entry_visible 7]; ImgError "x"] = Ok w2 ∧
    props (image w2) = hookedProps ∧
    state_fadeIn (state (image w2)) = state_fadeIn (state (image w0)) ∧
    (isVisible (state (image w1)) = true → isVisible (state (image w2)) = true) ∧
    (truthy (imgLoaded (state (image w1))) = true →
     truthy (imgLoaded (state (image w2))) = true) ∧
    calls w1 `prefix_of` calls w2.
Proof.
  eexists _, _, _.
  split; [reflexivity|]. split; [reflexivity|]. split; [reflexivity|].
  eapply (life_never_regresses browser imageCache_init [] registry_init 0
            hookedProps 7 loading_img _ [Intersect loading_img [entry_visible 7]] _
            [ImgLoad; Intersect loading_img [entry_visible 7]; ImgError "x"]);
    [constructor|reflexivity..].
Defined.

Lemma life_hidden_unloaded_witness :
  ∃ w0 w,
    mount browser imageCache_init registry_init 0 hookedProps 7 loading_img = Ok w0 ∧
    run w0 [ImgError "x"; Intersect loading_img [entry_visible 8]] = Ok w ∧
    isVisible (state (image w)) = false ∧
    imgLoaded (state (image w)) = VBool false ∧
    imgCached (state (image w)) = false ∧
    rendered_img w = None.
Proof.
  eexists _, _.
  split; [reflexivity|]. split; [reflexivity|]. split; [reflexivity|].
  eapply (life_hidden_unloaded browser imageCache_init [] registry_init 0
            hookedProps 7 loading_img _
            [ImgError "x"; Intersect loading_img [entry_visible 8]]);
    [constructor|reflexivity..].
Defined.

Lemma life_startLoad_once_witness :
  ∃ w0 w,
    mount browser imageCache_init registry_init 0 hookedProps 7 loading_img = Ok w0 ∧
    run w0 [Intersect loading_img [entry_visible 7; entry_visible 7]; ImgLoad;
            Intersect loading_img [entry_visible 7]] = Ok w ∧
    count_StartLoad (calls w)
    = if isVisible (state (image w)) && bool_decide (is_Some (onStartLoad hookedProps))
      then 1 else 0.
Proof.
  eexists _, _.
  split; [reflexivity|]. split; [reflexivity|].
  eapply (life_startLoad_once browser imageCache_init [] registry_init 0
            hookedProps 7 loading_img _
            [Intersect loading_img [entry_visible 7; entry_visible 7]; ImgLoad;
             Intersect loading_img [entry_visible 7]]);
    [constructor|reflexivity..].
Defined.

Lemma life_unmount_unsubscribes_witness :
  ∃ w0 w,
    mount browser imageCache_init registry_init 0 hookedProps 7 loading_img = Ok w0 ∧
    run w0 [ImgError "x"] = Ok w ∧
    ∃ w', step w Unmount = Ok w' ∧
          state (image w') = state (image w) ∧
          imageCache w' = imageCache w ∧
          ∀ u, cleanUpListeners (image w) = Some u →
               unregistered (registry w') (unsub_el u) ∧
               ∀ entries,
                 count_for (unsub_el u) (snd (io_callback (registry w') entries)) = 0.
Proof.
  eexists _, _.
  split; [reflexivity|]. split; [reflexivity|].
  eapply (life_unmount_unsubscribes browser imageCache_init [] registry_init 0
            hookedProps 7 loading_img _ [ImgError "x"]);
    [constructor|reflexivity..].
Defined.

(** The [load] event of a rendered [<img>] makes the image loaded and marks
    its identity, so that every controller constructed afterwards in a
    browser for the same props starts visible, without fade-in and without
    a subscription. *)
Theorem load_marks_seen env c keys r this p dom_wrapper dom_img w0 es w img w' :
  CacheHistory c keys →
  mount env c r this p dom_wrapper dom_img = Ok w0 →
  run w0 es = Ok w →
  rendered_img w = Some img →
  step w ImgLoad = Ok w' →
  imgLoaded (state (image w')) = VBool true ∧
  ∀ env' this',
    isBrowser env' = true →
    ∃ i', constructor env' (imageCache w') this' p = Ok i' ∧
          isVisible (state i') = true ∧
          state_fadeIn (state i') = false ∧
          truthy (useIOSupport i') = false.
Proof.
  intros Hc Hmount Hrun Himg Hstep.
  destruct (mount_consistent _ _ _ _ _ _ _ _ _ Hc Hmount) as (Hw0 & Hp0 & _).
  destruct (run_consistent _ _ _ Hw0 Hrun) as [Hw Hl].
  pose proof (later_props _ _ Hl) as Hp. rewrite Hp0 in Hp.
  simpl in Hstep. unfold img_load in Hstep. rewrite Himg in Hstep.
  destruct (rendered_img_handlers _ _ Himg) as (_ & Hh & _).
  rewrite Hh in Hstep. simpl in Hstep.
  destruct (handleImageLoaded_inv _ _ Hstep)
    as (Hact & _ & _ & _ & _ & _ & _ & _ & _ & Hloaded & _).
  split; [done|]. intros env' this' Hb.
  destruct (cache_reachable _ Hw) as [keys' Hc'].
  destruct (activateCacheForImage_inv _ _ _ Hact) as (key & Hkey & _).
  pose proof (history_mark _ _ _ _ _ Hc' Hkey Hact) as Hc''.
  rewrite Hp in Hkey.
  destruct (CacheHistory_marked_truthy _ _ p key Hc'' Hkey) as (v & Hv & Htv);
    [apply list_elem_of_here|].
  unfold constructor. rewrite Hb, Hv. simpl.
  eexists. split; [done|]. simpl.
  assert (Hio : ∀ x, truthy (js_and x (VBool (js_not v))) = false).
  { intros x. rewrite truthy_js_and. unfold js_not. rewrite Htv. simpl.
    apply andb_false_r. }
  repeat split.
  - unfold js_not at 1. rewrite Hio. simpl. by rewrite !orb_true_r.
  - unfold js_not. by rewrite Htv.
  - apply Hio.
Qed.

Lemma load_marks_seen_witness :
  ∃ w0 w img w',
    mount browser imageCache_init registry_init 0 hookedProps 7 loading_img = Ok w0 ∧
    run w0 [Intersect loading_img [entry_visible 7]] = Ok w ∧
    rendered_img w = Some img ∧
    step w ImgLoad = Ok w' ∧
    imgLoaded (state (image w')) = VBool true ∧
    ∀ env' this',
      isBrowser env' = true →
      ∃ i', constructor env' (imageCache w') this' hookedProps = Ok i' ∧
            isVisible (state i') = true ∧
            state_fadeIn (state i') = false ∧
            truthy (useIOSupport i') = false.
Proof.
  eexists _, _, _, _.
  split; [reflexivity|]. split; [reflexivity|]. split; [reflexivity|].
  split; [reflexivity|].
  eapply (load_marks_seen browser imageCache_init [] registry_init 0
            hookedProps 7 loading_img _ [Intersect loading_img [entry_visible 7]]);
    [constructor|reflexivity..].
Defined.

(** ** More on [render] *)

Lemma render_cases (i : Image) :
  render i
  = match supplied_fluid (props i), supplied_fixed (props i) with
    | Some lf, _ =>
        match preferred lf with
        | Some v => Ok (Some (render_children i (convertProps (props i)) Fluid v))
        | None => Throw (TypeError "Cannot read property 'srcSet' of undefined")
        end
    | None, Some lx =>
        match preferred lx with
        | Some v => Ok (Some (render_children i (convertProps (props i)) Fixed v))
        | None => Throw (TypeError "Cannot read property 'width' of undefined")
        end
    | None, None => Ok None
    end.
Proof.
  unfold render.
  pose proof (first_of_converted_fluid (props i)) as Hfl.
  pose proof (first_of_converted_fixed (props i)) as Hfx.
  destruct (convertProps_arrays (props i)) as (Efl & Efx & _).
  rewrite Efl, Efx in *.
  destruct (supplied_fluid (props i)) as [lf|]; simpl in *; [by rewrite Hfl|].
  destruct (supplied_fixed (props i)) as [lx|]; simpl in *; [by rewrite Hfx|done].
Qed.

Lemma render_picture (i : Image) (rd : Rendered) :
  render i = Ok (Some rd) →
  (picture rd = None ↔ isVisible (state i) = false).
Proof.
  rewrite render_cases.
  assert (∀ m v, picture (render_children i (convertProps (props i)) m v) = None
                 ↔ isVisible (state i) = false) as Hc.
  { intros m v. unfold render_children. simpl. by destruct (isVisible (state i)). }
  destruct (supplied_fluid (props i)) as [lf|].
  - destruct (preferred lf); [|done]. intros [= <-]. apply Hc.
  - destruct (supplied_fixed (props i)) as [lx|]; [|done].
    destruct (preferred lx); [|done]. intros [= <-]. apply Hc.
Qed.

(** [render] returns [null] exactly when neither array is supplied, and
    raises exactly when the array it chooses is empty: an empty fluid array
    raises even when a fixed array is supplied, although the cache key
    would then be taken from the fixed array. *)
Theorem render_outcome (i : Image) :
  (render i = Ok None ↔
     supplied_fluid (props i) = None ∧ supplied_fixed (props i) = None) ∧
  ((∃ e, render i = Throw e) ↔
     supplied_fluid (props i) = Some [] ∨
     (supplied_fluid (props i) = None ∧ supplied_fixed (props i) = Some [])).
Proof.
  unfold render.
  pose proof (first_of_converted_fluid (props i)) as Hfl.
  pose proof (first_of_converted_fixed (props i)) as Hfx.
  destruct (convertProps_arrays (props i)) as (Efl & Efx & _).
  rewrite Efl, Efx in *.
  destruct (supplied_fluid (props i)) as [lf|]; simpl in *.
  - rewrite Hfl. destruct (preferred lf) eqn:Ep.
    + split; split; try done; try (intros [e He]; discriminate He);
        try naive_solver.
    + apply preferred_None in Ep as ->.
      split; split; try done; try naive_solver.
  - destruct (supplied_fixed (props i)) as [lx|]; simpl in *.
    + rewrite Hfx. destruct (preferred lx) eqn:Ep.
      * split; split; try done; try (intros [e He]; discriminate He);
          try naive_solver.
      * apply preferred_None in Ep as ->.
        split; split; try done; try naive_solver.
    + split; split; try done; try (intros [e He]; discriminate He);
        try naive_solver.
Qed.

(** What the output holds.  The final [<img>] is present exactly when the
    controller is visible; it shows the very variant whose [src] is the
    cache key, wired to the component's load handler and the caller's error
    hook; placeholders keep their [alt] text only while the image is
    hidden; and the [noscript] fallback is there unless the load is
    [critical] with [fadeIn] off. *)
Theorem render_output (i : Image) (rendered : Rendered) :
  render i = Ok (Some rendered) →
  (picture rendered = None ↔ isVisible (state i) = false) ∧
  (∀ img, picture rendered = Some img →
          getImageSrcKey (convertProps (props i)) = Ok (img_src img) ∧
          img_onLoad img = HandleImageLoaded ∧
          img_onError img = onError (props i) ∧
          img_loading img
          = (if is_critical (props i) then Some LoadingEager else loading (props i))) ∧
  Forall (λ ph, placeholder_keeps_alt ph = negb (isVisible (state i)))
         (placeholders rendered) ∧
  noscript rendered = addNoScript i ∧
  (mode rendered = Fluid ↔ is_Some (supplied_fluid (props i))).
Proof.
  unfold render, getImageSrcKey.
  destruct (convertProps_arrays (props i)) as (Efl & Efx & Eload).
  assert (∀ m v,
    first_of (fluid (convertProps (props i))) = Some v ∨
    (first_of (fluid (convertProps (props i))) = None ∧
     first_of (fixed (convertProps (props i))) = Some v) →
    let rd := render_children i (convertProps (props i)) m v in
    (picture rd = None ↔ isVisible (state i) = false) ∧
    (∀ img, picture rd = Some img →
            match first_of (fluid (convertProps (props i))) with
            | Some d => Some d
            | None => first_of (fixed (convertProps (props i)))
            end = Some v ∧ img_src img = src v ∧
            img_onLoad img = HandleImageLoaded ∧
            img_onError img = onError (props i) ∧
            img_loading img = loading (convertProps (props i))) ∧
    Forall (λ ph, placeholder_keeps_alt ph = negb (isVisible (state i)))
           (placeholders rd) ∧
    noscript rd = addNoScript i ∧ mode rd = m) as Hc.
  { intros m v Hv rd. subst rd. unfold render_children. simpl.
    split; [by destruct (isVisible (state i))|].
    split.
    { intros img Himg. destruct (isVisible (state i)); [|done].
      injection Himg as <-. simpl.
      split; [by destruct Hv as [->|[-> ->]]|done]. }
    split; [|done].
    apply Forall_app. split.
    - destruct (if_truthy (base64 v)); simpl; by repeat constructor.
    - destruct (if_truthy (tracedSVG v)); simpl; by repeat constructor. }
  destruct (fluid (convertProps (props i))) as [f|] eqn:Hf.
  - destruct (first_of (Some f)) as [v|] eqn:Hv; [|done].
    intros [= <-].
    destruct (Hc Fluid v (or_introl eq_refl)) as (H1 & H2 & H3 & H4 & H5).
    split; [done|]. split.
    { intros img Himg. destruct (H2 img Himg) as (_ & -> & -> & -> & ->).
      by rewrite Eload. }
    split; [done|]. split; [done|]. rewrite H5. split; [|done].
    intros _. destruct (supplied_fluid (props i)); [by eexists|done].
  - destruct (fixed (convertProps (props i))) as [f|] eqn:Hx; [|done].
    destruct (first_of (Some f)) as [v|] eqn:Hv; [|done].
    intros [= <-].
    destruct (Hc Fixed v (or_intror (conj eq_refl eq_refl)))
      as (H1 & H2 & H3 & H4 & H5).
    split; [done|]. split.
    { intros img Himg. destruct (H2 img Himg) as (_ & -> & -> & -> & ->).
      simpl. by rewrite ?Hv, Eload. }
    split; [done|]. split; [done|]. rewrite H5. split; [done|].
    intros [l Hl]. by rewrite Hl in Efl.
Qed.

Lemma render_output_witness :
  ∃ i rendered,
    constructor browser imageCache_init 0 criticalProps = Ok i ∧
    render i = Ok (Some rendered) ∧
    (picture rendered = None ↔ isVisible (state i) = false) ∧
    (∀ img, picture rendered = Some img →
            getImageSrcKey (convertProps (props i)) = Ok (img_src img) ∧
            img_onLoad img = HandleImageLoaded ∧
            img_onError img = onError (props i) ∧
            img_loading img
            = (if is_critical (props i) then Some LoadingEager
               else loading (props i))) ∧
    Forall (λ ph, placeholder_keeps_alt ph = negb (isVisible (state i)))
           (placeholders rendered) ∧
    noscript rendered = addNoScript i ∧
    (mode rendered = Fluid ↔ is_Some (supplied_fluid (props i))).
Proof.
  eexists _, _. split; [reflexivity|]. split; [reflexivity|].
  eapply render_output. reflexivity.
Defined.

(** The final image layer.  Its opacity is 1 when [fadeIn] is off or the
    image is loaded and 0 otherwise, and it carries an opacity transition
    of the configured duration exactly when [fadeIn] is on and the image
    was not found cached; whatever the caller's [imgStyle] sets wins over
    both. *)
Theorem imageStyle_derived (p : Props) (s : State) :
  (default ∅ (imgStyle p) !! "opacity" = None →
   imageStyle p s !! "opacity"
   = Some (VNum (if negb (state_fadeIn s) || truthy (imgLoaded s) then 1 else 0))) ∧
  (default ∅ (imgStyle p) !! "transition" = None →
   imageStyle p s !! "transition"
   = Some (VStr (if state_fadeIn s && negb (imgCached s)
                 then "opacity " +:+ ms (durationFadeIn p) else "none"))) ∧
  (∀ key v, default ∅ (imgStyle p) !! key = Some v →
            imageStyle p s !! key = Some v).
Proof.
  unfold imageStyle. repeat split.
  - intros H. rewrite spread_lookup_base by done.
    rewrite lookup_insert_ne by done. rewrite lookup_singleton_eq.
    unfold shouldReveal. rewrite truthy_js_or. simpl.
    by destruct (state_fadeIn s).
  - intros H. rewrite spread_lookup_base by done.
    rewrite lookup_insert_eq. unfold shouldFadeIn.
    by destruct (state_fadeIn s).
  - intros key v H. by apply spread_lookup_over.
Qed.

Lemma imageStyle_derived_witness :
  imageStyle defaultProps sample_state !! "opacity" = Some (VNum 0) ∧
  imageStyle defaultProps sample_state !! "transition" = Some (VStr "none") ∧
  imageStyle styled_props
    {| isVisible := true; imgLoaded := VBool true; imgCached := false;
       state_fadeIn := true |} !! "opacity" = Some (VNum 1).
Proof.
  destruct (imageStyle_derived defaultProps sample_state) as (Hop & Htr & _).
  destruct (imageStyle_derived styled_props
              {| isVisible := true; imgLoaded := VBool true; imgCached := false;
                 state_fadeIn := true |}) as (Hop' & _ & _).
  split; [exact (Hop eq_refl)|]. split; [exact (Htr eq_refl)|exact (Hop' eq_refl)].
Defined.

(** ** Transitions *)


(** In a browser a constructed controller has a variant to show. *)
Lemma constructor_browser_key env c this p i :
  isBrowser env = true → constructor env c this p = Ok i →
  ∃ key, getImageSrcKey (convertProps p) = Ok key ∧
         seenBefore i = js_or (imageCache_get c key) (VBool false).
Proof.
  intros Hb (seen & Hseen & _ & _ & -> & _)%constructor_inv.
  rewrite Hb in Hseen. by apply inImageCache_inv in Hseen.
Qed.

Lemma render_not_null_key i rendered key :
  getImageSrcKey (convertProps (props i)) = Ok key →
  render i = Ok rendered → ∃ rd, rendered = Some rd.
Proof.
  rewrite getImageSrcKey_converted, render_cases.
  destruct (supplied_fluid (props i)) as [lf|]; simpl.
  - destruct (preferred lf); [|done]. intros _ [= <-]. by eexists.
  - destruct (supplied_fixed (props i)) as [lx|]; simpl; [|done].
    destruct (preferred lx); [|done]. intros _ [= <-]. by eexists.
Qed.

(** A [critical] image whose [<img>] is already complete when the component
    mounts in a browser is loaded from the start, and its identity is
    marked in the cache. *)
Theorem mount_critical_complete env c r this p dom_wrapper dom_img w :
  isBrowser env = true →
  is_critical p = true →
  complete dom_img = true →
  mount env c r this p dom_wrapper dom_img = Ok w →
  isVisible (state (image w)) = true ∧
  imgLoaded (state (image w)) = VBool true ∧
  ∃ key, getImageSrcKey (convertProps p) = Ok key ∧
         imageCache w = imageCache_set c key true.
Proof.
  intros Hb Hcrit Hcomplete (i & rendered & Hi & Hr & Hmount)%mount_inv.
  destruct (constructor_browser_key _ _ _ _ _ Hb Hi) as (key & Hkey & _).
  destruct (constructor_inv _ _ _ _ _ Hi)
    as (seen & _ & _ & Hp & _ & _ & _ & Hvis & _).
  rewrite Hcrit in Hvis. simpl in Hvis.
  assert (∃ rd, rendered = Some rd) as [rd ->].
  { eapply render_not_null_key; [|done]. by rewrite Hp. }
  revert Hmount.
  set (w1 := set_imageRef _ _).
  destruct (handleRef_inv env (Some dom_wrapper) w1)
    as (Hc2 & _ & _ & Hp2 & Hs2 & Hr2 & _).
  set (w2 := handleRef env (Some dom_wrapper) w1) in *.
  assert (imageRef (image w2) = Some dom_img) as Href.
  { rewrite Hr2. subst w1. simpl.
    destruct (picture rd) eqn:Hp'; [done|].
    pose proof (proj1 (render_picture _ _ Hr) Hp'). congruence. }
  intros Hmount.
  destruct (componentDidMount_critical w2 dom_img key) as (w' & Hw' & Hl & Hcache);
    try done.
  - rewrite Hp2. subst w1. simpl. by rewrite Hp.
  - rewrite Hp2. subst w1. simpl. by rewrite Hp.
  - rewrite Hw' in Hmount. injection Hmount as <-.
    split; [|split; [done|]].
    + assert (isVisible (state (image w2)) = true) as Hv2.
      { rewrite Hs2. subst w1. simpl. done. }
      clear -Hw' Hv2 Hcrit Hp2 Hp. revert Hw'. unfold componentDidMount.
      assert (∀ w0 : World, isVisible (state (image w0)) = true →
        (if is_critical (props (image w0)) then
           match imageRef (image w0) with
           | Some img => if complete img then handleImageLoaded w0 else Ok w0
           | None => Ok w0
           end
         else Ok w0) = Ok w' → isVisible (state (image w')) = true) as Hcheck.
      { intros w0 Hv0. destruct (is_critical (props (image w0))); [|by intros [= <-]].
        destruct (imageRef (image w0)) as [img|]; [|by intros [= <-]].
        destruct (complete img); [|by intros [= <-]].
        intros (_ & _ & _ & _ & _ & _ & _ & _ & Hv & _)%handleImageLoaded_inv.
        congruence. }
      destruct (onStartLoad (props (image w2))) as [h|]; simpl; [|by apply (Hcheck w2)].
      rewrite Hv2. simpl.
      destruct (inImageCache (imageCache w2) (props (image w2))) as [v|]; simpl;
        [|done].
      by apply (Hcheck (call_hook (StartLoad h v) w2)).
    + exists key. split; [done|]. rewrite Hcache, Hc2. subst w1. done.
Qed.

Lemma mount_critical_complete_witness :
  ∃ w,
    mount browser imageCache_init registry_init 0 criticalProps 7 complete_img = Ok w ∧
    isVisible (state (image w)) = true ∧
    imgLoaded (state (image w)) = VBool true ∧
    ∃ key, getImageSrcKey (convertProps criticalProps) = Ok key ∧
           imageCache w = imageCache_set imageCache_init key true.
Proof.
  eexists. split; [reflexivity|].
  apply (mount_critical_complete browser imageCache_init registry_init 0
           criticalProps 7 complete_img); reflexivity.
Defined.







(** ** Re-attached refs *)

Lemma handleRef_subscribes env el w :
  truthy (useIOSupport (image w)) = true →
  observer_available env (registry w) = true →
  handleRef env (Some el) w
  = set_cleanUpListeners {| unsub_observer := true; unsub_el := el |}
      (set_registry
         {| io := Some (default ∅ (io (registry w)) ∪ {[el]});
            listeners := <[el := OnIntersect (self (image w))]> (listeners (registry w)) |}
         w).
Proof.
  intros Huse Hav. unfold handleRef. rewrite Huse.
  by rewrite (listenToIntersections_available _ _ _ _ Hav).
Qed.

(** [handleRef] remembers only the latest unsubscribe function, and a
    detaching call ([null]) unsubscribes nothing: when React hands it a
    second wrapper element, both elements are under observation, and
    unmounting unregisters the second one only; the first stays registered
    with the instance's callback. *)
Theorem handleRef_keeps_latest env w el1 el2 :
  truthy (useIOSupport (image w)) = true →
  observer_available env (registry w) = true →
  el1 ≠ el2 →
  let w2 := handleRef env (Some el2) (handleRef env None (handleRef env (Some el1) w)) in
  subscribed (registry w2) el1 (OnIntersect (self (image w))) ∧
  subscribed (registry w2) el2 (OnIntersect (self (image w))) ∧
  cleanUpListeners (image w2) = Some {| unsub_observer := true; unsub_el := el2 |} ∧
  ∃ w3, componentWillUnmount w2 = Ok w3 ∧
        unregistered (registry w3) el2 ∧
        subscribed (registry w3) el1 (OnIntersect (self (image w))).
Proof.
  intros Huse Hav Hne.
  rewrite (handleRef_subscribes env el1 w Huse Hav).
  change (handleRef env None ?x) with x.
  rewrite handleRef_subscribes by done.
  cbn zeta. simpl.
  split; [|split; [|split]].
  - split; simpl.
    + rewrite lookup_insert_ne by done. apply lookup_insert_eq.
    + eexists. split; [done|]. set_solver.
  - split; simpl.
    + apply lookup_insert_eq.
    + eexists. split; [done|]. set_solver.
  - done.
  - unfold componentWillUnmount. simpl. eexists. split; [done|]. simpl. split.
    + split; simpl; [apply lookup_delete_eq|].
      intros observed [= <-]. set_solver.
    + split; simpl.
      * rewrite lookup_delete_ne by done. rewrite lookup_insert_ne by done.
        apply lookup_insert_eq.
      * eexists. split; [done|]. set_solver.
Qed.

Lemma handleRef_keeps_latest_witness :
  ∃ w,
    mount browser imageCache_init registry_init 0 hookedProps 7 loading_img = Ok w ∧
    let w2 := handleRef browser (Some 9) (handleRef browser None
                (handleRef browser (Some 8) w)) in
    subscribed (registry w2) 8 (OnIntersect (self (image w))) ∧
    subscribed (registry w2) 9 (OnIntersect (self (image w))) ∧
    cleanUpListeners (image w2) = Some {| unsub_observer := true; unsub_el := 9 |} ∧
    ∃ w3, componentWillUnmount w2 = Ok w3 ∧
          unregistered (registry w3) 9 ∧
          subscribed (registry w3) 8 (OnIntersect (self (image w))).
Proof.
  eexists. split; [reflexivity|].
  apply (handleRef_keeps_latest browser _ 8 9); [reflexivity|reflexivity|lia].
Defined.
